(** * Product service of [backend/server.py]: a shallow embedding

    The service is a FastAPI application in front of one MongoDB collection.
    Each handler of the source becomes a function that takes the collection
    and returns the handler's outcome together with the collection afterwards.

    What the handlers read from their environment is passed in explicitly:
    - [uuid4]  : the string produced by [str(uuid.uuid4())];
    - [utcnow] : the reading of [datetime.utcnow()], counted in microseconds.

    The collection is a list of documents in natural (insertion) order.  The
    driver refuses an integer outside the signed 64-bit range and the store
    refuses a document over its size limit; both are modelled, and the
    handlers turn them into a 500 as the source does.  The server is taken
    to be reachable (no transport failure), and a handler runs against the
    collection without interleaving with another request.  A handler's
    outcome is what the function returns or raises; how the framework
    renders it as JSON is not modelled.  The [_id] that the driver adds to a
    document is dropped by [product_helper] and appears only in the size of
    a document.  A Python [str] is a [string]: a sequence of characters with
    codes below 256, whose length is the number of characters. *)

From Stdlib Require Import List ZArith Lia Bool String Ascii.
From Stdlib Require Import Sorting.Sorted Sorting.Permutation.
From Stdlib Require Import Floats.SpecFloat.
Import ListNotations.

Local Open Scope string_scope.
Local Open Scope Z_scope.
Local Open Scope list_scope.

(** ** Values *)

(** A Python [float]: an IEEE 754 number in the Standard Library's
    specification type (sign, mantissa, exponent). *)
Definition float := spec_float.

(** [v > 0] on floats, the test behind [Field(..., gt=0)]; false on NaN. *)
Definition float_gt0 (v : float) : bool := SFltb (S754_zero false) v.

(** A [datetime] without time zone, as microseconds since the epoch. *)
Definition datetime := Z.

(** BSON keeps a datetime as whole milliseconds: the driver drops the
    microseconds below the millisecond when it encodes a document, and a
    document read back carries the truncated instant. *)
Definition bson_datetime (t : datetime) : datetime := 1000 * (t / 1000).

Definition float_eq_dec (x y : float) : {x = y} + {x <> y}.
Proof.
  decide equality; try apply Z.eq_dec; try apply Pos.eq_dec; apply bool_dec.
Defined.

Definition option_string_eq_dec (x y : option string) : {x = y} + {x <> y}.
Proof. decide equality; apply string_dec. Defined.

(** ** Pydantic models *)

(** [ProductBase]: the six client-supplied fields. *)
Record ProductBase := mkProductBase {
  name : string;
  description : string;
  price : float;
  category : string;
  stock_quantity : Z;
  image_url : option string
}.

(** [class ProductCreate(ProductBase): pass] *)
Definition ProductCreate := ProductBase.

(** [class Product(ProductBase)]: the base fields, then [id], [created_at]
    and [updated_at].  The coercion lets a base field be read off a product,
    as inheritance does in the source. *)
Record Product := mkProduct {
  product_base :> ProductBase;
  id : string;
  created_at : datetime;
  updated_at : datetime
}.

Definition ProductBase_eq_dec (x y : ProductBase) : {x = y} + {x <> y}.
Proof.
  decide equality; try apply string_dec; try apply Z.eq_dec;
    try apply float_eq_dec; apply option_string_eq_dec.
Defined.

Definition Product_eq_dec (x y : Product) : {x = y} + {x <> y}.
Proof.
  decide equality; try apply string_dec; try apply Z.eq_dec;
    apply ProductBase_eq_dec.
Defined.

(** One slot of a JSON request body: the key is absent, the key is present
    with [null], or the key is present with a value of the field's type. *)
Inductive slot (A : Type) : Type :=
| Unset : slot A
| Null : slot A
| Given (v : A) : slot A.
Arguments Unset {A}.
Arguments Null {A}.
Arguments Given {A} v.

(** A request body with the six slots of [ProductBase] / [ProductUpdate].
    A [ProductUpdate] instance is such a body that passed validation; it
    remembers which keys were set, which [dict(exclude_unset=True)] reads. *)
Module Body.
Record t := mk {
  name : slot string;
  description : slot string;
  price : slot float;
  category : slot string;
  stock_quantity : slot Z;
  image_url : slot string
}.
End Body.

Definition ProductUpdate := Body.t.

(** ** Validation (the [Field] constraints) *)

Inductive reason :=
| field_required          (* key absent from the body *)
| none_not_allowed        (* [null] for a required field *)
| min_length (n : nat)
| max_length (n : nat)
| not_gt (bound : Z)
| not_ge (bound : Z).

Definition field_error := (string * reason)%type.

(** [str] with [min_length] and [max_length]. *)
Definition check_str (field : string) (lo hi : nat) (v : string) : list field_error :=
  if (String.length v <? lo)%nat then [(field, min_length lo)]
  else if (hi <? String.length v)%nat then [(field, max_length hi)]
  else [].

(** [float] with [gt=0]. *)
Definition check_price (v : float) : list field_error :=
  if float_gt0 v then [] else [("price", not_gt 0)].

(** [int] with [ge=0]. *)
Definition check_stock (v : Z) : list field_error :=
  if 0 <=? v then [] else [("stock_quantity", not_ge 0)].

(** A required field, [Field(..., ...)]. *)
Definition required {A} (field : string) (check : A -> list field_error)
  (s : slot A) : list field_error :=
  match s with
  | Unset => [(field, field_required)]
  | Null => [(field, none_not_allowed)]
  | Given v => check v
  end.

(** An optional field, [Optional[...] = Field(None, ...)]: the constraint
    applies to a value, not to an absent key or to [null]. *)
Definition optional {A} (check : A -> list field_error) (s : slot A) : list field_error :=
  match s with
  | Given v => check v
  | _ => []
  end.

(** Errors of a body against [ProductBase] (lines 44-50), in field order. *)
Definition ProductCreate_errors (b : Body.t) : list field_error :=
  required "name" (check_str "name" 1 200) (Body.name b)
  ++ required "description" (check_str "description" 1 1000) (Body.description b)
  ++ required "price" check_price (Body.price b)
  ++ required "category" (check_str "category" 1 100) (Body.category b)
  ++ required "stock_quantity" check_stock (Body.stock_quantity b).

(** Errors of a body against [ProductUpdate] (lines 55-61). *)
Definition ProductUpdate_errors (b : Body.t) : list field_error :=
  optional (check_str "name" 1 200) (Body.name b)
  ++ optional (check_str "description" 1 1000) (Body.description b)
  ++ optional check_price (Body.price b)
  ++ optional (check_str "category" 1 100) (Body.category b)
  ++ optional check_stock (Body.stock_quantity b).

Definition slot_value {A} (s : slot A) : option A :=
  match s with
  | Given v => Some v
  | _ => None
  end.

(** Building the [ProductCreate] instance from a body: the list of errors,
    or the instance when there is none. *)
Definition ProductCreate_parse (b : Body.t) : list field_error + ProductCreate :=
  match ProductCreate_errors b with
  | [] =>
      match Body.name b, Body.description b, Body.price b,
            Body.category b, Body.stock_quantity b with
      | Given n, Given d, Given p, Given c, Given q =>
          inr (mkProductBase n d p c q (slot_value (Body.image_url b)))
      | _, _, _, _, _ => inl []
      end
  | errs => inl errs
  end.

(** ** Outcomes *)

(** The exceptions that reach an [except Exception] clause of a handler. *)
Inductive exn :=
| ValueError (message : string)   (* raised by the driver at [skip] *)
| OverflowError                   (* an integer that BSON cannot hold *)
| TooLarge                        (* a document over the size limit: [DocumentTooLarge]
                                     in the driver, a write error from the server *)
| OperationFailure                (* the server rejects the pattern *)
| TypeError                       (* [product_helper(None)] *)
| HTTPException (status : Z) (detail : string).

(** [str(e)], where the text is fixed by the driver: the other texts depend
    on the build of the driver or on the server. *)
Definition exception_text (e : exn) : option string :=
  match e with
  | ValueError message => Some message
  | _ => None
  end.

(** [InternalErrorCaused prefix e] is the answer of a generic
    [except Exception as e] clause: status 500 with the detail
    [f"{prefix}: {str(e)}"]. *)
Inductive error :=
| ValidationError (errors : list field_error)      (* 422 *)
| NotFound (product_id : string)                   (* 404 *)
| InternalError (detail : string)                  (* 500 *)
| InternalErrorCaused (prefix : string) (cause : exn).   (* 500 *)

Definition status_code (e : error) : Z :=
  match e with
  | ValidationError _ => 422
  | NotFound _ => 404
  | InternalError _ => 500
  | InternalErrorCaused _ _ => 500
  end.

(** The detail string of an answer, where the model fixes it. *)
Definition detail (e : error) : option string :=
  match e with
  | ValidationError _ => None
  | NotFound product_id =>
      Some (String.append "Product with id "
              (String.append product_id " not found"))
  | InternalError d => Some d
  | InternalErrorCaused prefix cause =>
      option_map (fun text => String.append prefix (String.append ": " text))
        (exception_text cause)
  end.

Inductive result (A : Type) : Type :=
| Ok (a : A) : result A
| Err (e : error) : result A.
Arguments Ok {A} a.
Arguments Err {A} e.

(** ** The collection *)

Definition Store := list Product.

(** What the driver writes for a document: datetimes at millisecond
    resolution. *)
Definition bson_encode (doc : Product) : Product :=
  mkProduct (product_base doc) (id doc)
    (bson_datetime (created_at doc)) (bson_datetime (updated_at doc)).

(** [find_one({"id": product_id})]: the first document with that id. *)
Fixpoint find_one (store : Store) (product_id : string) : option Product :=
  match store with
  | [] => None
  | doc :: rest =>
      if string_dec (id doc) product_id then Some doc else find_one rest product_id
  end.

(** The integers that BSON holds: 32 or 64 bits, signed. *)
Definition max_int64 : Z := 9223372036854775807.

Definition fits_int64 (v : Z) : bool := (- max_int64 - 1 <=? v) && (v <=? max_int64).

Definition fits_int32 (v : Z) : bool := (-2147483648 <=? v) && (v <=? 2147483647).

(** The length of a string in UTF-8: one byte for a character below 128,
    two for the others. *)
Fixpoint utf8_length (s : string) : Z :=
  match s with
  | EmptyString => 0
  | String c rest => (if (nat_of_ascii c <? 128)%nat then 1 else 2) + utf8_length rest
  end.

(** The size of a BSON element: type byte, key with its terminator, value. *)
Definition bson_element (key : string) (value_size : Z) : Z :=
  1 + (utf8_length key + 1) + value_size.

Definition bson_string (v : string) : Z := 4 + utf8_length v + 1.

Definition bson_int (v : Z) : Z := if fits_int32 v then 4 else 8.

(** The size of a product document with its [_id] (an ObjectId, 12 bytes):
    strings, a double, an int32 or int64, null or a string, two datetimes. *)
Definition bson_size (doc : Product) : Z :=
  4
  + bson_element "_id" 12
  + bson_element "name" (bson_string (name doc))
  + bson_element "description" (bson_string (description doc))
  + bson_element "price" 8
  + bson_element "category" (bson_string (category doc))
  + bson_element "stock_quantity" (bson_int (stock_quantity doc))
  + bson_element "image_url"
      match image_url doc with
      | Some url => bson_string url
      | None => 0
      end
  + bson_element "id" (bson_string (id doc))
  + bson_element "created_at" 8
  + bson_element "updated_at" 8
  + 1.

(** The largest document the store takes: 16 MiB. *)
Definition max_bson_size : Z := 16777216.

Record InsertOneResult := { inserted_id : bool }.

(** [insert_one(doc)]: the driver encodes the document, which fails on an
    integer outside 64 bits; a document over the size limit is refused; the
    others go to the end of the collection.  The result carries the
    generated [_id], of which the handler only tests the truth value. *)
Definition insert_one (store : Store) (doc : Product)
  : exn + (InsertOneResult * Store) :=
  if negb (fits_int64 (stock_quantity doc)) then inl OverflowError
  else if max_bson_size <? bson_size doc then inl TooLarge
  else inr ({| inserted_id := true |}, store ++ [bson_encode doc]).

Record DeleteResult := { deleted_count : Z }.

(** [delete_one({"id": product_id})]: removes the first document with that
    id. *)
Fixpoint delete_one (store : Store) (product_id : string) : DeleteResult * Store :=
  match store with
  | [] => ({| deleted_count := 0 |}, [])
  | doc :: rest =>
      if string_dec (id doc) product_id then ({| deleted_count := 1 |}, rest)
      else let (r, rest') := delete_one rest product_id in (r, doc :: rest')
  end.

(** One entry of the [$set] document built by [update_product]. *)
Inductive set_field :=
| set_name (v : string)
| set_description (v : string)
| set_price (v : float)
| set_category (v : string)
| set_stock_quantity (v : Z)
| set_image_url (v : string)
| set_updated_at (v : datetime).

Definition with_base (doc : Product) (b : ProductBase) : Product :=
  mkProduct b (id doc) (created_at doc) (updated_at doc).

Definition apply_set (doc : Product) (f : set_field) : Product :=
  match f with
  | set_name v =>
      with_base doc (mkProductBase v (description doc) (price doc) (category doc)
                       (stock_quantity doc) (image_url doc))
  | set_description v =>
      with_base doc (mkProductBase (name doc) v (price doc) (category doc)
                       (stock_quantity doc) (image_url doc))
  | set_price v =>
      with_base doc (mkProductBase (name doc) (description doc) v (category doc)
                       (stock_quantity doc) (image_url doc))
  | set_category v =>
      with_base doc (mkProductBase (name doc) (description doc) (price doc) v
                       (stock_quantity doc) (image_url doc))
  | set_stock_quantity v =>
      with_base doc (mkProductBase (name doc) (description doc) (price doc)
                       (category doc) v (image_url doc))
  | set_image_url v =>
      with_base doc (mkProductBase (name doc) (description doc) (price doc)
                       (category doc) (stock_quantity doc) (Some v))
  | set_updated_at v =>
      mkProduct (product_base doc) (id doc) (created_at doc) (bson_datetime v)
  end.

Definition apply_sets (doc : Product) (update_data : list set_field) : Product :=
  fold_left apply_set update_data doc.

Record UpdateResult := { matched_count : Z; modified_count : Z }.

(** The write of an update that the store accepts: the first document with
    the id receives the fields.  The server counts a document as modified
    only when the update changes it. *)
Fixpoint update_first (store : Store) (product_id : string)
  (update_data : list set_field) : UpdateResult * Store :=
  match store with
  | [] => ({| matched_count := 0; modified_count := 0 |}, [])
  | doc :: rest =>
      if string_dec (id doc) product_id then
        let doc' := apply_sets doc update_data in
        if Product_eq_dec doc' doc
        then ({| matched_count := 1; modified_count := 0 |}, doc :: rest)
        else ({| matched_count := 1; modified_count := 1 |}, doc' :: rest)
      else
        let (r, rest') := update_first rest product_id update_data in
        (r, doc :: rest')
  end.

(** An entry of [$set] that the driver can encode. *)
Definition set_encodable (f : set_field) : bool :=
  match f with
  | set_stock_quantity v => fits_int64 v
  | _ => true
  end.

(** The server refuses an update whose result is over the size limit.  A
    stored document is within the limit, so this only happens to a result
    larger than the document it replaces. *)
Definition result_too_large (doc doc' : Product) : bool :=
  (max_bson_size <? bson_size doc') && (bson_size doc <? bson_size doc').

(** [update_one({"id": product_id}, {"$set": update_data})]: the driver
    encodes the update, which fails on an integer outside 64 bits; the
    server refuses a result over the size limit; otherwise the first
    document with the id is written and the counts are reported. *)
Definition update_one (store : Store) (product_id : string)
  (update_data : list set_field) : exn + (UpdateResult * Store) :=
  if negb (forallb set_encodable update_data) then inl OverflowError
  else
    match find_one store product_id with
    | Some doc =>
        if result_too_large doc (apply_sets doc update_data)
        then inl TooLarge
        else inr (update_first store product_id update_data)
    | None => inr (update_first store product_id update_data)
    end.

(** ** Handlers *)

(** [product_helper]: the response dictionary of a document. *)
Definition product_helper (product : Product) : Product :=
  {| product_base :=
       {| name := name product;
          description := description product;
          price := price product;
          category := category product;
          stock_quantity := stock_quantity product;
          image_url := image_url product |};
     id := id product;
     created_at := created_at product;
     updated_at := updated_at product |}.

(** [create_product] (lines 112-140).  Every exception raised in the body,
    the handler's own [HTTPException] included, reaches its
    [except Exception] clause; a [None] from the re-read makes
    [product_helper] raise a [TypeError]. *)
Definition create_product (store : Store) (uuid4 : string) (utcnow : datetime)
  (product : ProductCreate) : result Product * Store :=
  let product_id := uuid4 in
  let current_time := utcnow in
  let product_dict :=
    {| product_base := product; id := product_id;
       created_at := current_time; updated_at := current_time |} in
  match insert_one store product_dict with
  | inr (result, store') =>
      if inserted_id result then
        match find_one store' product_id with
        | Some created_product => (Ok (product_helper created_product), store')
        | None =>
            (Err (InternalErrorCaused "Failed to create product" TypeError), store')
        end
      else
        (Err (InternalErrorCaused "Failed to create product"
                (HTTPException 500 "Failed to create product")), store')
  | inl e => (Err (InternalErrorCaused "Failed to create product" e), store)
  end.

(** [POST /api/products]: the body is validated against [ProductCreate]
    before the handler runs; a body with errors is answered with 422. *)
Definition post_product (store : Store) (uuid4 : string) (utcnow : datetime)
  (body : Body.t) : result Product * Store :=
  match ProductCreate_parse body with
  | inl errors => (Err (ValidationError errors), store)
  | inr product => create_product store uuid4 utcnow product
  end.

(** [get_product] (lines 166-185). *)
Definition get_product (store : Store) (product_id : string) : result Product :=
  match find_one store product_id with
  | Some product => Ok (product_helper product)
  | None => Err (NotFound product_id)
  end.

Definition set_of {A} (mk : A -> set_field) (s : slot A) : list set_field :=
  match s with
  | Given v => [mk v]
  | _ => []
  end.

(** The loop of lines 200-203: the fields that were set and are not [None],
    in the order of the model's fields. *)
Definition collect_update_data (product_update : ProductUpdate) : list set_field :=
  set_of set_name (Body.name product_update)
  ++ set_of set_description (Body.description product_update)
  ++ set_of set_price (Body.price product_update)
  ++ set_of set_category (Body.category product_update)
  ++ set_of set_stock_quantity (Body.stock_quantity product_update)
  ++ set_of set_image_url (Body.image_url product_update).

(** [update_product] (lines 188-232).  The handler's own [HTTPException]s
    pass through [except HTTPException: raise]; any other exception reaches
    the generic clause. *)
Definition update_product (store : Store) (utcnow : datetime)
  (product_id : string) (product_update : ProductUpdate) : result Product * Store :=
  match find_one store product_id with
  | None => (Err (NotFound product_id), store)
  | Some existing_product =>
      let update_data := collect_update_data product_update in
      match update_data with
      | _ :: _ =>
          let update_data := update_data ++ [set_updated_at utcnow] in
          match update_one store product_id update_data with
          | inr (result, store') =>
              if modified_count result =? 1 then
                match find_one store' product_id with
                | Some updated_product =>
                    (Ok (product_helper updated_product), store')
                | None =>
                    (Err (InternalErrorCaused "Failed to update product" TypeError),
                     store')
                end
              else (Err (InternalError "Failed to update product"), store')
          | inl e => (Err (InternalErrorCaused "Failed to update product" e), store)
          end
      | [] => (Ok (product_helper existing_product), store)
      end
  end.

(** [PUT /api/products/{product_id}]: the body is validated against
    [ProductUpdate] before the handler runs. *)
Definition put_product (store : Store) (utcnow : datetime)
  (product_id : string) (body : Body.t) : result Product * Store :=
  match ProductUpdate_errors body with
  | [] => update_product store utcnow product_id body
  | errors => (Err (ValidationError errors), store)
  end.

(** [delete_product] (lines 235-254); success carries no value (204). *)
Definition delete_product (store : Store) (product_id : string) : result unit * Store :=
  let (result, store') := delete_one store product_id in
  if deleted_count result =? 1 then (Ok tt, store')
  else (Err (NotFound product_id), store').

(** ** The category filter: [{"$regex": category, "$options": "i"}]

    The server hands the pattern to its PCRE engine and keeps the documents
    in which the pattern matches somewhere in the field (an unanchored
    search), letters compared without case.  The engine is modelled on a
    fragment of the pattern language:
    - a printable ASCII character that is not a metacharacter stands for
      itself;
    - [.] stands for any character but a line feed;
    - a backslash before a metacharacter makes it stand for itself;
    - [?], [*] and [+] after one of these repeat it.
    A pattern outside the fragment is left to [pcre_other] below, of which
    nothing is assumed. *)
Module Regex.

Inductive atom :=
| Lit (c : ascii)
| AnyChar.

Inductive quantifier := Once | ZeroOrOne | ZeroOrMore | OneOrMore.

Inductive token :=
| TAtom (a : atom)
| TQuant (q : quantifier).

Definition item := (atom * quantifier)%type.

Definition metacharacters : list ascii := list_ascii_of_string "\^$.|?*+()[]{}".

Definition is_meta (c : ascii) : bool := existsb (Ascii.eqb c) metacharacters.

(** Printable ASCII, not a metacharacter. *)
Definition is_plain (c : ascii) : bool :=
  let n := nat_of_ascii c in
  (32 <=? n)%nat && (n <=? 126)%nat && negb (is_meta c).

Fixpoint tokens (p : list ascii) : option (list token) :=
  match p with
  | [] => Some []
  | c :: rest =>
      if Ascii.eqb c "\" then
        match rest with
        | m :: rest' =>
            if is_meta m then option_map (cons (TAtom (Lit m))) (tokens rest')
            else None
        | [] => None
        end
      else if Ascii.eqb c "." then option_map (cons (TAtom AnyChar)) (tokens rest)
      else if Ascii.eqb c "?" then option_map (cons (TQuant ZeroOrOne)) (tokens rest)
      else if Ascii.eqb c "*" then option_map (cons (TQuant ZeroOrMore)) (tokens rest)
      else if Ascii.eqb c "+" then option_map (cons (TQuant OneOrMore)) (tokens rest)
      else if is_plain c then option_map (cons (TAtom (Lit c))) (tokens rest)
      else None
  end.

(** An atom with at most one quantifier after it; a quantifier with nothing
    to repeat, or stacked on another, is outside the fragment. *)
Fixpoint items (ts : list token) : option (list item) :=
  match ts with
  | [] => Some []
  | TQuant _ :: _ => None
  | TAtom a :: rest =>
      match rest with
      | TQuant q :: rest' =>
          match rest' with
          | TQuant _ :: _ => None
          | _ => option_map (cons (a, q)) (items rest')
          end
      | _ => option_map (cons (a, Once)) (items rest)
      end
  end.

Definition compile (pattern : string) : option (list item) :=
  match tokens (list_ascii_of_string pattern) with
  | Some ts => items ts
  | None => None
  end.

(** Case folding of option [i] on the ASCII letters. *)
Definition to_lower (c : ascii) : ascii :=
  let n := nat_of_ascii c in
  if (65 <=? n)%nat && (n <=? 90)%nat then ascii_of_nat (n + 32) else c.

Definition line_feed : ascii := ascii_of_nat 10.

Definition atom_matches (a : atom) (c : ascii) : bool :=
  match a with
  | Lit x => Ascii.eqb (to_lower x) (to_lower c)
  | AnyChar => negb (Ascii.eqb c line_feed)
  end.

(** Zero or more characters accepted by [step], then [k] on what is left. *)
Fixpoint repeat_then (step : ascii -> bool) (k : list ascii -> bool)
  (s : list ascii) : bool :=
  k s || match s with
         | c :: s' => step c && repeat_then step k s'
         | [] => false
         end.

(** Does the pattern match at the start of [s]? *)
Fixpoint match_here (r : list item) (s : list ascii) : bool :=
  match r with
  | [] => true
  | (a, q) :: r' =>
      match q with
      | Once =>
          match s with
          | c :: s' => atom_matches a c && match_here r' s'
          | [] => false
          end
      | ZeroOrOne =>
          match_here r' s
          || match s with
             | c :: s' => atom_matches a c && match_here r' s'
             | [] => false
             end
      | ZeroOrMore => repeat_then (atom_matches a) (match_here r') s
      | OneOrMore =>
          match s with
          | c :: s' => atom_matches a c && repeat_then (atom_matches a) (match_here r') s'
          | [] => false
          end
      end
  end.

(** Does the pattern match somewhere in [s]? *)
Fixpoint search (r : list item) (s : list ascii) : bool :=
  match_here r s || match s with
                    | _ :: s' => search r s'
                    | [] => false
                    end.

End Regex.

(** ** Listing *)

Inductive query :=
| all_documents                          (* [{}] *)
| category_regex (pattern : string).     (* [{"category": {"$regex": pattern, "$options": "i"}}] *)

(** [sort("created_at", -1)]: an insertion sort; among equal keys the
    documents stay in natural order (the server leaves that order open). *)
Fixpoint insert_desc (doc : Product) (sorted : list Product) : list Product :=
  match sorted with
  | [] => [doc]
  | d :: rest =>
      if created_at d <=? created_at doc then doc :: d :: rest
      else d :: insert_desc doc rest
  end.

Definition sort_created_at_desc (docs : list Product) : list Product :=
  fold_right insert_desc [] docs.

(** [limit(n)]: [0] is no limit; the driver sends the absolute value of a
    negative one (and asks for a single batch, whose cap is not modelled). *)
Definition apply_limit (limit : Z) (docs : list Product) : list Product :=
  if limit =? 0 then docs else firstn (Z.to_nat (Z.abs limit)) docs.

Section Listing.

(** The engine on the patterns outside the fragment: [None] when it rejects
    the pattern, otherwise the search it performs on a subject. *)
Variable pcre_other : string -> option (string -> bool).

Definition regex_i (pattern : string) : option (string -> bool) :=
  match Regex.compile pattern with
  | Some r => Some (fun subject => Regex.search r (list_ascii_of_string subject))
  | None => pcre_other pattern
  end.

(** [find(query)]: the matching documents in natural order. *)
Definition find (store : Store) (q : query) : exn + list Product :=
  match q with
  | all_documents => inr store
  | category_regex pattern =>
      match regex_i pattern with
      | Some matches => inr (filter (fun doc : Product => matches (category doc)) store)
      | None => inl OperationFailure
      end
  end.

(** [list(find(query).skip(skip).limit(limit).sort("created_at", -1))]:
    [skip] raises on a negative number; the cursor collects the three
    options whatever the order of the calls; the driver encodes the command,
    which fails on a skip or a limit outside 64 bits; the server sorts, then
    skips, then limits. *)
Definition find_skip_limit_sort (store : Store) (q : query) (skip limit : Z)
  : exn + list Product :=
  if skip <? 0 then inl (ValueError "skip must be >= 0")
  else if negb (fits_int64 skip && fits_int64 (Z.abs limit)) then inl OverflowError
  else
    match find store q with
    | inr docs =>
        inr (apply_limit limit (skipn (Z.to_nat skip) (sort_created_at_desc docs)))
    | inl e => inl e
    end.

(** Truth value of [Optional[str]]: [None] and the empty string are false. *)
Definition truthy (category : option string) : option string :=
  match category with
  | Some EmptyString => None
  | other => other
  end.

(** [get_products] (lines 143-163). *)
Definition get_products (store : Store) (skip limit : Z) (category : option string)
  : result (list Product) :=
  let query :=
    match truthy category with
    | Some c => category_regex c
    | None => all_documents
    end in
  match find_skip_limit_sort store query skip limit with
  | inr products => Ok (map product_helper products)
  | inl e => Err (InternalErrorCaused "Failed to fetch products" e)
  end.

(** [get_products_by_category] (lines 257-273). *)
Definition get_products_by_category (store : Store) (category : string)
  (skip limit : Z) : result (list Product) :=
  match find_skip_limit_sort store (category_regex category) skip limit with
  | inr products => Ok (map product_helper products)
  | inl e => Err (InternalErrorCaused "Failed to fetch products by category" e)
  end.

End Listing.

(** ** Requests over time *)

(** The requests that can change the collection. *)
Inductive request :=
| POST (uuid4 : string) (utcnow : datetime) (body : Body.t)
| PUT (utcnow : datetime) (product_id : string) (body : Body.t)
| DELETE (product_id : string).

Definition serve (store : Store) (r : request) : Store :=
  match r with
  | POST uuid4 utcnow body => snd (post_product store uuid4 utcnow body)
  | PUT utcnow product_id body => snd (put_product store utcnow product_id body)
  | DELETE product_id => snd (delete_product store product_id)
  end.



(** ** Properties named by the specification *)

(** The field constraints of the data model. *)
Definition length_within (lo hi : nat) (s : string) : Prop :=
  (lo <= String.length s <= hi)%nat.

Record field_constraints (p : ProductBase) : Prop := {
  name_length : length_within 1 200 (name p);
  description_length : length_within 1 1000 (description p);
  price_positive : float_gt0 (price p) = true;
  category_length : length_within 1 100 (category p);
  stock_quantity_nonneg : 0 <= stock_quantity p
}.

(** The invariant of the data model: every product meets the constraints
    and has [created_at <= updated_at], and no id occurs twice. *)
Definition well_formed (p : Product) : Prop :=
  field_constraints p /\ created_at p <= updated_at p.

Definition store_inv (store : Store) : Prop :=
  Forall well_formed store /\ NoDup (map id store).

(** A slot that gives no value to a required field. *)
Definition missing {A} (s : slot A) : Prop := s = Unset \/ s = Null.

Definition length_outside (lo hi : nat) (s : slot string) : Prop :=
  exists v, s = Given v /\ ((String.length v < lo)%nat \/ (hi < String.length v)%nat).

(** [violation b f]: the create body [b] breaks a constraint on field [f]. *)
Inductive violation (b : Body.t) : string -> Prop :=
| name_missing : missing (Body.name b) -> violation b "name"
| name_length_bounds : length_outside 1 200 (Body.name b) -> violation b "name"
| description_missing : missing (Body.description b) -> violation b "description"
| description_length_bounds :
    length_outside 1 1000 (Body.description b) -> violation b "description"
| price_missing : missing (Body.price b) -> violation b "price"
| price_not_positive v :
    Body.price b = Given v -> float_gt0 v = false -> violation b "price"
| category_missing : missing (Body.category b) -> violation b "category"
| category_length_bounds :
    length_outside 1 100 (Body.category b) -> violation b "category"
| stock_quantity_missing :
    missing (Body.stock_quantity b) -> violation b "stock_quantity"
| stock_quantity_negative v :
    Body.stock_quantity b = Given v -> v < 0 -> violation b "stock_quantity".

(** Ordered by [created_at], latest first. *)
Definition created_at_descending (l : list Product) : Prop :=
  StronglySorted (fun a b : Product => created_at b <= created_at a) l.

(** Case-insensitive substring containment, stated on the folded strings. *)
Definition fold_case (s : string) : list ascii :=
  map Regex.to_lower (list_ascii_of_string s).

Definition contains_ci (sub s : string) : Prop :=
  exists pre post, fold_case s = pre ++ fold_case sub ++ post.

(** The same as a test. *)
Fixpoint prefix_ci (p s : list ascii) : bool :=
  match p, s with
  | [], _ => true
  | a :: p', c :: s' => Ascii.eqb (Regex.to_lower a) (Regex.to_lower c) && prefix_ci p' s'
  | _ :: _, [] => false
  end.

Fixpoint infix_ci (p s : list ascii) : bool :=
  prefix_ci p s || match s with
                   | _ :: s' => infix_ci p s'
                   | [] => false
                   end.

Definition contains_cib (sub s : string) : bool :=
  infix_ci (list_ascii_of_string sub) (list_ascii_of_string s).

(** A filter made of plain characters only: no metacharacter, printable
    ASCII. *)
Definition plain_filter (category : string) : bool :=
  forallb Regex.is_plain (list_ascii_of_string category).

(** The page [skip], [limit] of a sequence. *)
Definition page (skip limit : Z) (docs : list Product) : list Product :=
  firstn (Z.to_nat limit) (skipn (Z.to_nat skip) docs).

(** The products of a listing, when it answers with one. *)
Definition products_of (r : result (list Product)) : option (list Product) :=
  match r with
  | Ok l => Some l
  | Err _ => None
  end.

(** A partial that supplies no field: every key is absent or [null]. *)
Definition supplies_nothing (partial : ProductUpdate) : Prop :=
  slot_value (Body.name partial) = None
  /\ slot_value (Body.description partial) = None
  /\ slot_value (Body.price partial) = None
  /\ slot_value (Body.category partial) = None
  /\ slot_value (Body.stock_quantity partial) = None
  /\ slot_value (Body.image_url partial) = None.

(** What a request needs from its environment: a create is given an id
    that no stored product has; an update is served when the clock, at the
    resolution of the store, does not read before the creation of the
    product it updates. *)
Definition environment_ok (store : Store) (r : request) : Prop :=
  match r with
  | POST uuid4 _ _ => ~ In uuid4 (map id store)
  | PUT utcnow product_id _ =>
      forall p, find_one store product_id = Some p ->
                created_at p <= bson_datetime utcnow
  | DELETE _ => True
  end.

(** The value of a [$set] entry meets the constraint of its field. *)
Definition set_within_constraints (f : set_field) : Prop :=
  match f with
  | set_name v => length_within 1 200 v
  | set_description v => length_within 1 1000 v
  | set_price v => float_gt0 v = true
  | set_category v => length_within 1 100 v
  | set_stock_quantity v => 0 <= v
  | set_image_url _ => True
  | set_updated_at _ => True
  end.

(** The value of a field after a partial update: the supplied value, or
    the stored one when the key is absent or [null]. *)
Definition slot_or {A} (s : slot A) (stored : A) : A :=
  match s with
  | Given v => v
  | _ => stored
  end.

Definition slot_or_some {A} (s : slot A) (stored : option A) : option A :=
  match s with
  | Given v => Some v
  | _ => stored
  end.

(** A stored document with the supplied fields of a partial in place of its
    own and [updated_at] at the clock reading. *)
Definition patched (doc : Product) (partial : ProductUpdate) (utcnow : datetime)
  : Product :=
  mkProduct
    (mkProductBase
       (slot_or (Body.name partial) (name doc))
       (slot_or (Body.description partial) (description doc))
       (slot_or (Body.price partial) (price doc))
       (slot_or (Body.category partial) (category doc))
       (slot_or (Body.stock_quantity partial) (stock_quantity doc))
       (slot_or_some (Body.image_url partial) (image_url doc)))
    (id doc) (created_at doc) (bson_datetime utcnow).

(** [update_violation b f]: the update body [b] supplies a value for field
    [f] that breaks the constraint of [ProductUpdate] on it. *)
Inductive update_violation (b : Body.t) : string -> Prop :=
| update_name_length :
    length_outside 1 200 (Body.name b) -> update_violation b "name"
| update_description_length :
    length_outside 1 1000 (Body.description b) -> update_violation b "description"
| update_price_not_positive v :
    Body.price b = Given v -> float_gt0 v = false -> update_violation b "price"
| update_category_length :
    length_outside 1 100 (Body.category b) -> update_violation b "category"
| update_stock_quantity_negative v :
    Body.stock_quantity b = Given v -> v < 0 -> update_violation b "stock_quantity".

(** The store takes the document: its integer fits 64 bits and its size is
    within the limit. *)
Definition store_takes (doc : Product) : Prop :=
  fits_int64 (stock_quantity doc) = true /\ bson_size doc <= max_bson_size.

(** The store takes the update of a document: the integers of [$set] fit 64
    bits and the result is not refused for its size. *)
Definition store_takes_update (doc : Product) (update_data : list set_field) : Prop :=
  forallb set_encodable update_data = true
  /\ result_too_large doc (apply_sets doc update_data) = false.

(** ** Sample data *)

(** 9.99 and -1.0 as binary64 numbers. *)
Definition price_9_99 : float := S754_finite false 5623870034678907 (-49).
Definition price_minus_1 : float := S754_finite true 4503599627370496 (-52).
Definition price_12_5 : float := S754_finite false 7036874417766400 (-49).

Definition mug_body : Body.t :=
  Body.mk (Given "Mug") (Given "Ceramic mug") (Given price_9_99)
    (Given "Kitchen") (Given 100) Unset.

Definition mug_base : ProductBase :=
  mkProductBase "Mug" "Ceramic mug" price_9_99 "Kitchen" 100 None.

(** A mug created at millisecond 5 (5000 microseconds). *)
Definition mug : Product := mkProduct mug_base "mug-1" 5000 5000.

(** The mug with a stock of 2^63, one more than a 64-bit integer holds. *)
Definition mug_body_2_63 : Body.t :=
  Body.mk (Given "Mug") (Given "Ceramic mug") (Given price_9_99)
    (Given "Kitchen") (Given 9223372036854775808) Unset.

(** A text of 2^24 characters, as long as the largest document. *)
Fixpoint doubled (k : nat) (s : string) : string :=
  match k with
  | O => s
  | S k' => doubled k' (String.append s s)
  end.

Definition text_16MiB : string := doubled 24 "a".

(** The mug with that text as the address of its picture. *)
Definition mug_body_16MiB : Body.t :=
  Body.mk (Given "Mug") (Given "Ceramic mug") (Given price_9_99)
    (Given "Kitchen") (Given 100) (Given text_16MiB).

Definition image_url_only (url : string) : ProductUpdate :=
  Body.mk Unset Unset Unset Unset Unset (Given url).

Definition price_only (p : float) : ProductUpdate :=
  Body.mk Unset Unset (Given p) Unset Unset Unset.

Definition stock_only (q : Z) : ProductUpdate :=
  Body.mk Unset Unset Unset Unset (Given q) Unset.

(** A second mug, created a millisecond after the first. *)
Definition mug2 : Product := mkProduct mug_base "mug-2" 6000 6000.

(** The first mug with a picture. *)
Definition mug_pictured : Product :=
  mkProduct
    (mkProductBase "Mug" "Ceramic mug" price_9_99 "Kitchen" 100 (Some "mug.png"))
    "mug-1" 5000 5000.

Definition no_fields : ProductUpdate :=
  Body.mk Unset Unset Unset Unset Unset Unset.

Definition all_null : ProductUpdate :=
  Body.mk Null Null Null Null Null Null.

(** An engine that rejects every pattern outside the fragment. *)
Definition reject_other : string -> option (string -> bool) := fun _ => None.

(** * Facts about the store primitives *)

Lemma product_helper_same (p : Product) : product_helper p = p.
Proof. destruct p as [[n d pr c q u] i ca ua]; reflexivity. Qed.

Lemma find_one_id store pid doc :
  find_one store pid = Some doc -> id doc = pid.
Proof.
  induction store as [|d rest IH]; simpl; [discriminate|].
  destruct (string_dec (id d) pid) as [E|E]; [|exact IH].
  intros H; injection H as <-; exact E.
Qed.

Lemma find_one_In store pid doc :
  find_one store pid = Some doc -> In doc store.
Proof.
  induction store as [|d rest IH]; simpl; [discriminate|].
  destruct (string_dec (id d) pid) as [E|E].
  - intros H; injection H as <-; now left.
  - intros H; right; auto.
Qed.

Lemma find_one_None store pid :
  find_one store pid = None <-> ~ In pid (map id store).
Proof.
  induction store as [|d rest IH]; simpl.
  - split; auto.
  - destruct (string_dec (id d) pid) as [E|E].
    + split; [discriminate|]. intros H; exfalso; apply H; now left.
    + rewrite IH. split.
      * intros H [H'|H']; [now apply E | now apply H].
      * intros H H'; apply H; now right.
Qed.


Lemma find_one_app_l store more pid doc :
  find_one store pid = Some doc -> find_one (store ++ more) pid = Some doc.
Proof.
  induction store as [|d rest IH]; simpl; [discriminate|].
  destruct (string_dec (id d) pid); auto.
Qed.

Lemma find_one_app_r store more pid :
  find_one store pid = None -> find_one (store ++ more) pid = find_one more pid.
Proof.
  induction store as [|d rest IH]; simpl; [reflexivity|].
  destruct (string_dec (id d) pid); [discriminate | auto].
Qed.

Lemma delete_one_absent store pid :
  find_one store pid = None ->
  delete_one store pid = ({| deleted_count := 0 |}, store).
Proof.
  induction store as [|d rest IH]; simpl; [reflexivity|].
  destruct (string_dec (id d) pid); [discriminate|].
  intros H. now rewrite (IH H).
Qed.

Lemma delete_one_present store pid doc :
  find_one store pid = Some doc ->
  exists store', delete_one store pid = ({| deleted_count := 1 |}, store')
                 /\ (forall x, In x store' -> In x store)
                 /\ (NoDup (map id store) -> find_one store' pid = None)
                 /\ (NoDup (map id store) -> NoDup (map id store')).
Proof.
  induction store as [|d rest IH]; simpl; [discriminate|].
  destruct (string_dec (id d) pid) as [E|E].
  - intros _. exists rest. repeat split; auto.
    + intros ND. inversion ND; subst. now apply find_one_None.
    + intros ND. now inversion ND.
  - intros H. destruct (IH H) as (s' & Hd & Hin & Hnone & Hnd).
    exists (d :: s'). rewrite Hd. repeat split.
    + intros x [<-|Hx]; [now left | right; auto].
    + intros ND. inversion ND; subst. simpl.
      destruct (string_dec (id d) pid); [contradiction | auto].
    + intros ND. inversion ND as [|? ? Hnot ND']; subst. simpl. constructor; auto.
      intros Hc. apply Hnot. apply in_map_iff in Hc. destruct Hc as (x & Hx & Hxin).
      apply in_map_iff. exists x. auto.
Qed.

(** An update keeps the id of a document. *)
Lemma apply_set_id doc f : id (apply_set doc f) = id doc.
Proof. destruct f; reflexivity. Qed.

Lemma apply_sets_id data : forall doc, id (apply_sets doc data) = id doc.
Proof.
  unfold apply_sets.
  induction data as [|f data IH]; intros doc; simpl; [reflexivity|].
  rewrite IH. apply apply_set_id.
Qed.

Lemma apply_set_created_at doc f : created_at (apply_set doc f) = created_at doc.
Proof. destruct f; reflexivity. Qed.

Lemma apply_sets_created_at data :
  forall doc, created_at (apply_sets doc data) = created_at doc.
Proof.
  unfold apply_sets.
  induction data as [|f data IH]; intros doc; simpl; [reflexivity|].
  rewrite IH. apply apply_set_created_at.
Qed.

Lemma apply_sets_app doc d1 d2 :
  apply_sets doc (d1 ++ d2) = apply_sets (apply_sets doc d1) d2.
Proof. unfold apply_sets. apply fold_left_app. Qed.

Lemma update_first_absent store pid data :
  find_one store pid = None ->
  update_first store pid data = ({| matched_count := 0; modified_count := 0 |}, store).
Proof.
  induction store as [|d rest IH]; simpl; [reflexivity|].
  destruct (string_dec (id d) pid); [discriminate|].
  intros H. now rewrite (IH H).
Qed.

(** What [update_first] does when the document is there: the store reports
    one match; it reports a modification exactly when the fields change the
    document, and the document found afterwards is the updated one. *)
Lemma update_first_present store pid data doc :
  find_one store pid = Some doc ->
  exists store',
    update_first store pid data =
      ({| matched_count := 1;
          modified_count := if Product_eq_dec (apply_sets doc data) doc then 0 else 1 |},
       store')
    /\ find_one store' pid = Some (apply_sets doc data)
    /\ map id store' = map id store
    /\ (forall x, In x store' -> x = apply_sets doc data \/ In x store)
    /\ (apply_sets doc data = doc -> store' = store).
Proof.
  induction store as [|d rest IH]; simpl; [discriminate|].
  destruct (string_dec (id d) pid) as [E|E].
  - intros H; injection H as <-.
    destruct (Product_eq_dec (apply_sets d data) d) as [Eq|Ne].
    + exists (d :: rest). simpl. rewrite Eq.
      destruct (string_dec (id d) pid); [|contradiction].
      repeat split; auto.
    + exists (apply_sets d data :: rest). simpl. rewrite apply_sets_id.
      destruct (string_dec (id d) pid); [|contradiction].
      repeat split; auto.
      * intros x [<-|Hx]; [now left | right; now right].
      * intros Eq; contradiction.
  - intros H. destruct (IH H) as (s' & Hu & Hf & Hids & Hin & Hsame).
    exists (d :: s'). rewrite Hu. simpl.
    destruct (string_dec (id d) pid); [contradiction|].
    repeat split; auto.
    + now rewrite Hids.
    + intros x [<-|Hx]; [right; now left|].
      destruct (Hin x Hx); [now left | right; now right].
    + intros Eq. now rewrite (Hsame Eq).
Qed.

Lemma ProductCreate_parse_inr body input :
  ProductCreate_parse body = inr input ->
  ProductCreate_errors body = []
  /\ Body.name body = Given (name input)
  /\ Body.description body = Given (description input)
  /\ Body.price body = Given (price input)
  /\ Body.category body = Given (category input)
  /\ Body.stock_quantity body = Given (stock_quantity input)
  /\ slot_value (Body.image_url body) = image_url input.
Proof.
  unfold ProductCreate_parse.
  destruct (ProductCreate_errors body) eqn:E; [|discriminate].
  destruct (Body.name body), (Body.description body), (Body.price body),
    (Body.category body), (Body.stock_quantity body); try discriminate.
  intros H; injection H as <-. simpl. repeat split; reflexivity.
Qed.

Lemma ProductCreate_parse_inl body errors :
  ProductCreate_parse body = inl errors ->
  errors = ProductCreate_errors body /\ errors <> [].
Proof.
  unfold ProductCreate_parse.
  destruct (ProductCreate_errors body) as [|e errs] eqn:E.
  - unfold ProductCreate_errors in E.
    destruct (Body.name body), (Body.description body), (Body.price body),
      (Body.category body), (Body.stock_quantity body); simpl in E;
      try discriminate;
      repeat match type of E with
        | context [check_str ?f ?lo ?hi ?v] => destruct (check_str f lo hi v)
        | context [check_price ?v] => destruct (check_price v)
        end; discriminate.
  - intros H; injection H as <-. split; [reflexivity | discriminate].
Qed.

(** ** What each request does to the collection *)

(** When the store takes the document, [insert_one] appends it. *)
Lemma insert_one_cases store doc :
  (exists e, insert_one store doc = inl e)
  \/ insert_one store doc = inr ({| inserted_id := true |}, store ++ [bson_encode doc]).
Proof.
  unfold insert_one.
  destruct (negb (fits_int64 (stock_quantity doc))); [left; eauto|].
  destruct (max_bson_size <? bson_size doc); [left; eauto | now right].
Qed.

Lemma create_product_store store uuid4 utcnow product :
  snd (create_product store uuid4 utcnow product) = store
  \/ snd (create_product store uuid4 utcnow product)
     = store ++ [mkProduct product uuid4 (bson_datetime utcnow) (bson_datetime utcnow)].
Proof.
  unfold create_product.
  destruct (insert_one_cases store
              (mkProduct product uuid4 utcnow utcnow)) as [(e & ->)| ->];
    [now left | right].
  unfold bson_encode. simpl. destruct (find_one _ uuid4); reflexivity.
Qed.

(** What [update_one] answers: a refusal, or the write of [update_first]. *)
Lemma update_one_cases store pid data :
  (exists e, update_one store pid data = inl e)
  \/ update_one store pid data = inr (update_first store pid data).
Proof.
  unfold update_one.
  destruct (negb (forallb set_encodable data)); [left; eauto|].
  destruct (find_one store pid) as [doc|]; [|now right].
  destruct (result_too_large doc (apply_sets doc data)); [left; eauto | now right].
Qed.

Lemma update_one_accepted store pid data doc :
  find_one store pid = Some doc ->
  forallb set_encodable data = true ->
  result_too_large doc (apply_sets doc data) = false ->
  update_one store pid data = inr (update_first store pid data).
Proof.
  intros Hfind Henc Hsize. unfold update_one. now rewrite Henc, Hfind, Hsize.
Qed.

Lemma delete_one_subset store pid :
  forall x, In x (snd (delete_one store pid)) -> In x store.
Proof.
  induction store as [|d rest IH]; simpl; [auto|].
  destruct (string_dec (id d) pid); simpl.
  - intros x Hx; now right.
  - destruct (delete_one rest pid) as [r rest'] eqn:E. simpl in *.
    intros x [<-|Hx]; [now left | right; auto].
Qed.

Lemma delete_product_store store pid :
  snd (delete_product store pid) = snd (delete_one store pid).
Proof.
  unfold delete_product. destruct (delete_one store pid) as [r s'].
  destruct (deleted_count r =? 1); reflexivity.
Qed.

(** An update leaves the ids, and their order, as they are. *)
Lemma update_first_ids store pid data :
  map id (snd (update_first store pid data)) = map id store.
Proof.
  induction store as [|d rest IH]; simpl; [reflexivity|].
  destruct (string_dec (id d) pid).
  - destruct (Product_eq_dec (apply_sets d data) d); simpl; [reflexivity|].
    now rewrite apply_sets_id.
  - destruct (update_first rest pid data) as [r rest'] eqn:E. simpl in *.
    now rewrite IH.
Qed.

Lemma update_product_store store utcnow pid partial :
  snd (update_product store utcnow pid partial) = store
  \/ snd (update_product store utcnow pid partial)
     = snd (update_first store pid
              (collect_update_data partial ++ [set_updated_at utcnow])).
Proof.
  unfold update_product.
  destruct (find_one store pid); [|now left].
  destruct (collect_update_data partial) as [|f data] eqn:Ec; [now left|].
  rewrite <- Ec.
  destruct (update_one_cases store pid
              (collect_update_data partial ++ [set_updated_at utcnow]))
    as [(e & ->)| ->]; [now left|].
  destruct (update_first store pid _) as [r s'] eqn:E. simpl.
  right. destruct (modified_count r =? 1); [|reflexivity].
  destruct (find_one s' pid); reflexivity.
Qed.

Lemma put_product_store store utcnow pid body :
  snd (put_product store utcnow pid body) = store
  \/ (ProductUpdate_errors body = []
      /\ snd (put_product store utcnow pid body)
         = snd (update_first store pid
                  (collect_update_data body ++ [set_updated_at utcnow]))).
Proof.
  unfold put_product.
  destruct (ProductUpdate_errors body) eqn:E; [|now left].
  destruct (update_product_store store utcnow pid body) as [H|H];
    [now left | right; now split].
Qed.



(** ** Sizes *)

Lemma utf8_length_nonneg s : 0 <= utf8_length s.
Proof.
  induction s as [|c s IH]; simpl; [lia|].
  destruct (nat_of_ascii c <? 128)%nat; lia.
Qed.

Lemma utf8_length_append s t :
  utf8_length (String.append s t) = utf8_length s + utf8_length t.
Proof.
  induction s as [|c s IH]; simpl; [reflexivity|]. rewrite IH. lia.
Qed.

Lemma utf8_length_doubled k :
  forall s, utf8_length (doubled k s) = 2 ^ Z.of_nat k * utf8_length s.
Proof.
  induction k as [|k IH]; intros s.
  - cbn [doubled]. change (2 ^ Z.of_nat 0) with 1. ring.
  - cbn [doubled]. rewrite IH, utf8_length_append, Nat2Z.inj_succ, Z.pow_succ_r by lia.
    ring.
Qed.

Lemma utf8_length_text_16MiB : utf8_length text_16MiB = 16777216.
Proof. unfold text_16MiB. rewrite utf8_length_doubled. reflexivity. Qed.

(** A document is larger than the text of its [image_url]. *)
Lemma bson_size_image_url (doc : Product) url :
  image_url doc = Some url -> utf8_length url < bson_size doc.
Proof.
  intros H. unfold bson_size, bson_element, bson_string, bson_int. rewrite H.
  pose proof (utf8_length_nonneg (name doc)).
  pose proof (utf8_length_nonneg (description doc)).
  pose proof (utf8_length_nonneg (category doc)).
  pose proof (utf8_length_nonneg (id doc)).
  pose proof (utf8_length_nonneg url).
  change (utf8_length "_id") with 3. change (utf8_length "name") with 4.
  change (utf8_length "description") with 11. change (utf8_length "price") with 5.
  change (utf8_length "category") with 8.
  change (utf8_length "stock_quantity") with 14.
  change (utf8_length "image_url") with 9. change (utf8_length "id") with 2.
  change (utf8_length "created_at") with 10.
  change (utf8_length "updated_at") with 10.
  destruct (fits_int32 (stock_quantity doc)); lia.
Qed.

Lemma insert_one_too_large store (doc : Product) :
  fits_int64 (stock_quantity doc) = true ->
  max_bson_size < bson_size doc ->
  insert_one store doc = inl TooLarge.
Proof.
  intros Hint Hsize. unfold insert_one. rewrite Hint.
  apply Z.ltb_lt in Hsize. now rewrite Hsize.
Qed.

Lemma update_one_too_large store pid data doc :
  find_one store pid = Some doc ->
  forallb set_encodable data = true ->
  max_bson_size < bson_size (apply_sets doc data) ->
  bson_size doc <= max_bson_size ->
  update_one store pid data = inl TooLarge.
Proof.
  intros Hfind Henc Hbig Hsmall. unfold update_one, result_too_large.
  rewrite Henc, Hfind. cbn [negb].
  replace (max_bson_size <? bson_size (apply_sets doc data)) with true
    by (symmetry; now apply Z.ltb_lt).
  replace (bson_size doc <? bson_size (apply_sets doc data)) with true
    by (symmetry; apply Z.ltb_lt; lia).
  reflexivity.
Qed.

(** * Create, read, delete *)

(** C1, as the code has it.  A valid create body whose document the store
    takes (a stock quantity within 64 bits, a size within the limit), with a
    generated id that no stored product has, is answered with a product that
    carries that id, equal creation and update instants, and the fields of
    the body; the product is appended to the collection, and reading it back
    by its id returns the same product. *)
Theorem create_then_get store uuid4 utcnow body input :
  ProductCreate_parse body = inr input ->
  ~ In uuid4 (map id store) ->
  store_takes (mkProduct input uuid4 utcnow utcnow) ->
  exists created store',
    post_product store uuid4 utcnow body = (Ok created, store')
    /\ id created = uuid4
    /\ created_at created = updated_at created
    /\ created_at created = bson_datetime utcnow
    /\ product_base created = input
    /\ Body.name body = Given (name created)
    /\ Body.description body = Given (description created)
    /\ Body.price body = Given (price created)
    /\ Body.category body = Given (category created)
    /\ Body.stock_quantity body = Given (stock_quantity created)
    /\ slot_value (Body.image_url body) = image_url created
    /\ store' = store ++ [created]
    /\ get_product store' (id created) = Ok created.
Proof.
  intros Hparse Hfresh [Hint Hsize]. apply find_one_None in Hfresh.
  destruct (ProductCreate_parse_inr _ _ Hparse) as (_ & Hn & Hd & Hp & Hc & Hq & Hu).
  set (created := mkProduct input uuid4 (bson_datetime utcnow) (bson_datetime utcnow)).
  assert (Hfind : find_one (store ++ [created]) uuid4 = Some created).
  { rewrite (find_one_app_r _ _ _ Hfresh). simpl.
    destruct (string_dec uuid4 uuid4); [reflexivity | contradiction]. }
  exists created, (store ++ [created]).
  unfold post_product. rewrite Hparse.
  unfold create_product, insert_one. rewrite Hint.
  apply Z.ltb_ge in Hsize. rewrite Hsize.
  unfold bson_encode.
  cbn [negb inserted_id id created_at updated_at product_base].
  fold created. rewrite Hfind, product_helper_same.
  repeat split; try assumption.
  unfold get_product. cbn [id created]. fold created.
  now rewrite Hfind, product_helper_same.
Qed.

Lemma create_then_get_witness :
  exists created store',
    post_product [mug] "mug-2" 7250 mug_body = (Ok created, store')
    /\ id created = "mug-2"
    /\ created_at created = updated_at created
    /\ get_product store' (id created) = Ok created.
Proof.
  assert (Hfresh : ~ In "mug-2" (map id [mug])).
  { simpl. intros [H|[]]. discriminate H. }
  assert (Htakes : store_takes (mkProduct mug_base "mug-2" 7250 7250)).
  { split; [reflexivity | vm_compute; discriminate]. }
  destruct (create_then_get [mug] "mug-2" 7250 mug_body mug_base eq_refl Hfresh Htakes)
    as (created & store' & H & Hid & Heq & _ & _ & _ & _ & _ & _ & _ & _ & _ & Hget).
  exists created, store'. auto.
Defined.

(** C1 as stated fails: the body with a stock quantity of 2^63 passes
    validation and the generated id is new, yet the driver cannot encode the
    document: the create answers 500 and the collection stays as it was. *)
Lemma create_stock_beyond_int64 :
  ProductCreate_errors mug_body_2_63 = []
  /\ ~ In "mug-2" (map id [mug])
  /\ post_product [mug] "mug-2" 7250 mug_body_2_63
     = (Err (InternalErrorCaused "Failed to create product" OverflowError), [mug])
  /\ status_code (InternalErrorCaused "Failed to create product" OverflowError) = 500.
Proof.
  split; [reflexivity|]. split; [|split; reflexivity].
  simpl. intros [H|[]]. discriminate H.
Qed.

(** The size limit has the same effect: a body whose [image_url] alone is as
    long as the largest document passes validation, and the create answers
    500 with the collection as it was. *)
Lemma create_picture_beyond_size :
  ProductCreate_errors mug_body_16MiB = []
  /\ post_product [mug] "mug-2" 7250 mug_body_16MiB
     = (Err (InternalErrorCaused "Failed to create product" TooLarge), [mug]).
Proof.
  split; [reflexivity|].
  unfold post_product, mug_body_16MiB.
  change (ProductCreate_parse _)
    with (@inr (list field_error) ProductCreate
            (mkProductBase "Mug" "Ceramic mug" price_9_99 "Kitchen" 100
               (Some text_16MiB))).
  cbv iota beta. unfold create_product.
  rewrite insert_one_too_large; [reflexivity | reflexivity |].
  apply Z.le_lt_trans with (m := utf8_length text_16MiB).
  - rewrite utf8_length_text_16MiB. unfold max_bson_size. lia.
  - now apply bson_size_image_url.
Qed.

(** C2. For an id that no stored product has, reading, updating (whatever
    the partial and the clock) and deleting fail with [NotFound], and the
    collection stays as it was; so does the update request with any partial
    that passes validation. *)
Theorem absent_id_not_found store product_id :
  ~ In product_id (map id store) ->
  get_product store product_id = Err (NotFound product_id)
  /\ (forall utcnow partial,
        update_product store utcnow product_id partial
        = (Err (NotFound product_id), store))
  /\ (forall utcnow partial,
        ProductUpdate_errors partial = [] ->
        put_product store utcnow product_id partial
        = (Err (NotFound product_id), store))
  /\ delete_product store product_id = (Err (NotFound product_id), store).
Proof.
  intros Habsent. apply find_one_None in Habsent.
  assert (Hupd : forall utcnow partial,
             update_product store utcnow product_id partial
             = (Err (NotFound product_id), store)).
  { intros utcnow partial. unfold update_product. now rewrite Habsent. }
  split; [|split; [|split]].
  - unfold get_product. now rewrite Habsent.
  - exact Hupd.
  - intros utcnow partial Hvalid. unfold put_product. rewrite Hvalid. apply Hupd.
  - unfold delete_product. now rewrite (delete_one_absent _ _ Habsent).
Qed.

Lemma absent_id_not_found_witness :
  get_product [mug] "mug-2" = Err (NotFound "mug-2")
  /\ update_product [mug] 7000 "mug-2" (price_only price_12_5)
     = (Err (NotFound "mug-2"), [mug])
  /\ delete_product [mug] "mug-2" = (Err (NotFound "mug-2"), [mug]).
Proof.
  assert (H : ~ In "mug-2" (map id [mug])).
  { simpl. intros [H|[]]. discriminate H. }
  destruct (absent_id_not_found [mug] "mug-2" H) as (Hg & Hu & _ & Hd).
  split; [exact Hg | split; [apply Hu | exact Hd]].
Defined.



(** * Update *)

Lemma collect_nothing partial :
  collect_update_data partial = [] <-> supplies_nothing partial.
Proof.
  unfold collect_update_data, supplies_nothing.
  destruct (Body.name partial), (Body.description partial), (Body.price partial),
    (Body.category partial), (Body.stock_quantity partial), (Body.image_url partial);
    simpl; split; intros H; try discriminate; try tauto;
    repeat match type of H with _ /\ _ => destruct H as [? H] end; discriminate.
Qed.

Lemma update_first_other store pid data other :
  other <> pid ->
  find_one (snd (update_first store pid data)) other = find_one store other.
Proof.
  intros Hne. induction store as [|d rest IH]; simpl; [reflexivity|].
  destruct (string_dec (id d) pid) as [E|E].
  - destruct (Product_eq_dec (apply_sets d data) d); simpl; [reflexivity|].
    rewrite apply_sets_id.
    destruct (string_dec (id d) other); [congruence | reflexivity].
  - destruct (update_first rest pid data) as [r rest'] eqn:Eu. simpl in *.
    now rewrite IH.
Qed.

(** The handler on an existing product and a partial that supplies a field,
    when the store takes the update, in terms of what [update_first]
    reports. *)
Lemma update_product_supplied store utcnow pid existing partial :
  find_one store pid = Some existing ->
  collect_update_data partial <> [] ->
  let update_data := collect_update_data partial ++ [set_updated_at utcnow] in
  let updated := apply_sets existing update_data in
  update_one store pid update_data = inr (update_first store pid update_data) ->
  update_product store utcnow pid partial =
    if Product_eq_dec updated existing
    then (Err (InternalError "Failed to update product"), store)
    else (Ok updated, snd (update_first store pid update_data)).
Proof.
  intros Hfind Hsome update_data updated Htakes.
  destruct (update_first_present store pid update_data existing Hfind)
    as (store' & Hupd & Hfind' & _ & _ & Hsame).
  unfold update_product. rewrite Hfind.
  destruct (collect_update_data partial) as [|f data] eqn:E; [contradiction|].
  fold update_data. rewrite Htakes, Hupd. cbn [modified_count]. fold updated.
  destruct (Product_eq_dec updated existing) as [Eq|Ne]; cbn [Z.eqb Pos.eqb].
  - now rewrite (Hsame Eq).
  - cbn [snd]. now rewrite Hfind', product_helper_same.
Qed.

(** The same when the store refuses the update. *)
Lemma update_product_refused store utcnow pid existing partial e :
  find_one store pid = Some existing ->
  collect_update_data partial <> [] ->
  update_one store pid (collect_update_data partial ++ [set_updated_at utcnow])
  = inl e ->
  update_product store utcnow pid partial
  = (Err (InternalErrorCaused "Failed to update product" e), store).
Proof.
  intros Hfind Hsome Hrefused. unfold update_product. rewrite Hfind.
  destruct (collect_update_data partial) as [|f data] eqn:E; [contradiction|].
  now rewrite Hrefused.
Qed.

Lemma store_takes_update_accepted store pid existing data :
  find_one store pid = Some existing ->
  store_takes_update existing data ->
  update_one store pid data = inr (update_first store pid data).
Proof. intros Hfind [Henc Hsize]. now apply (update_one_accepted store pid data existing). Qed.

Lemma store_refuses_update store pid existing data :
  find_one store pid = Some existing ->
  ~ store_takes_update existing data ->
  exists e, update_one store pid data = inl e.
Proof.
  intros Hfind Hnot. unfold update_one. rewrite Hfind.
  destruct (forallb set_encodable data) eqn:Henc; cbn [negb]; [|eauto].
  destruct (result_too_large existing (apply_sets existing data)) eqn:Hsize; [eauto|].
  exfalso. apply Hnot. now split.
Qed.

(** A price and an instant change no size. *)
Lemma price_update_taken existing p utcnow :
  store_takes_update existing [set_price p; set_updated_at utcnow].
Proof.
  split; [reflexivity|]. unfold result_too_large.
  replace (bson_size (apply_sets existing [set_price p; set_updated_at utcnow]))
    with (bson_size existing) by (destruct existing as [[n d pr c q u] i ca ua]; reflexivity).
  rewrite Z.ltb_irrefl. apply andb_false_r.
Qed.

(** C5. On an existing product, a partial that supplies no field (every key
    absent or [null]) is answered with the stored product as it is; the
    collection, and with it [updated_at], stays as it was. *)
Theorem update_without_fields store utcnow product_id existing partial :
  find_one store product_id = Some existing ->
  supplies_nothing partial ->
  put_product store utcnow product_id partial = (Ok existing, store)
  /\ update_product store utcnow product_id partial = (Ok existing, store).
Proof.
  intros Hfind Hnone.
  assert (Hupd : update_product store utcnow product_id partial = (Ok existing, store)).
  { unfold update_product. rewrite Hfind.
    apply collect_nothing in Hnone. rewrite Hnone.
    now rewrite product_helper_same. }
  split; [|exact Hupd].
  unfold put_product, ProductUpdate_errors.
  destruct Hnone as (Hn & Hd & Hp & Hc & Hq & _).
  destruct (Body.name partial), (Body.description partial), (Body.price partial),
    (Body.category partial), (Body.stock_quantity partial); try discriminate;
    simpl; exact Hupd.
Qed.

Lemma update_without_fields_witness :
  put_product [mug] 9000 "mug-1" all_null = (Ok mug, [mug])
  /\ update_product [mug] 9000 "mug-1" no_fields = (Ok mug, [mug]).
Proof.
  split.
  - apply (update_without_fields [mug] 9000 "mug-1" mug all_null); [reflexivity|].
    repeat split.
  - apply (update_without_fields [mug] 9000 "mug-1" mug no_fields); [reflexivity|].
    repeat split.
Defined.

(** C4, as the code has it.  On an existing product, a partial with a valid
    price alone, served when the clock (at the store's millisecond
    resolution) reads later than the stored [updated_at], succeeds: the
    stored product gets the new price and the clock reading as [updated_at],
    every other field stays, [updated_at] has strictly increased, and no
    other product changes. *)
Theorem update_price_only store utcnow product_id existing p :
  find_one store product_id = Some existing ->
  float_gt0 p = true ->
  updated_at existing < bson_datetime utcnow ->
  exists updated store',
    put_product store utcnow product_id (price_only p) = (Ok updated, store')
    /\ find_one store' product_id = Some updated
    /\ price updated = p
    /\ updated_at updated = bson_datetime utcnow
    /\ updated_at existing < updated_at updated
    /\ id updated = id existing
    /\ name updated = name existing
    /\ description updated = description existing
    /\ category updated = category existing
    /\ stock_quantity updated = stock_quantity existing
    /\ image_url updated = image_url existing
    /\ created_at updated = created_at existing
    /\ (forall other, other <> product_id ->
          find_one store' other = find_one store other).
Proof.
  intros Hfind Hp Hclock.
  set (update_data := [set_price p; set_updated_at utcnow]).
  set (updated := apply_sets existing update_data).
  exists updated, (snd (update_first store product_id update_data)).
  assert (Hne : updated <> existing).
  { intros Eq. apply (f_equal updated_at) in Eq. simpl in Eq. lia. }
  split.
  - unfold put_product, ProductUpdate_errors, check_price. simpl. rewrite Hp. simpl.
    pose proof (update_product_supplied store utcnow product_id existing
                  (price_only p) Hfind) as H.
    cbv zeta in H.
    change (collect_update_data (price_only p) ++ [set_updated_at utcnow])
      with update_data in H.
    fold updated in H. rewrite H; [|discriminate|].
    + destruct (Product_eq_dec updated existing); [contradiction | reflexivity].
    + apply (store_takes_update_accepted store product_id existing); [exact Hfind|].
      apply price_update_taken.
  - destruct (update_first_present store product_id update_data existing Hfind)
      as (store' & Hupd & Hfind' & _).
    rewrite Hupd. simpl. split; [exact Hfind'|].
    repeat split; try exact Hclock.
    intros other Hother.
    replace store' with (snd (update_first store product_id update_data))
      by (now rewrite Hupd).
    now apply update_first_other.
Qed.

Lemma update_price_only_witness :
  exists updated store',
    put_product [mug] 6000 "mug-1" (price_only price_12_5) = (Ok updated, store')
    /\ price updated = price_12_5
    /\ updated_at mug < updated_at updated.
Proof.
  assert (Hclock : updated_at mug < bson_datetime 6000) by (vm_compute; reflexivity).
  destruct (update_price_only [mug] 6000 "mug-1" mug price_12_5 eq_refl eq_refl Hclock)
    as (updated & store' & H & _ & Hp & _ & Hlt & _).
  exists updated, store'. auto.
Defined.

(** C4 as stated fails: the mug's [updated_at] is millisecond 5; a price
    update served when the clock still reads that instant succeeds and
    changes the price, yet [updated_at] has not increased. *)
Lemma update_price_same_instant :
  find_one [mug] "mug-1" = Some mug
  /\ float_gt0 price_12_5 = true
  /\ exists updated store',
       put_product [mug] 5000 "mug-1" (price_only price_12_5) = (Ok updated, store')
       /\ find_one store' "mug-1" = Some updated
       /\ price updated = price_12_5
       /\ ~ (updated_at mug < updated_at updated).
Proof.
  split; [reflexivity|]. split; [reflexivity|].
  eexists. eexists. split; [vm_compute; reflexivity|].
  split; [reflexivity|]. split; [reflexivity|].
  vm_compute. discriminate.
Qed.

(** The same happens for any reading within the stored millisecond. *)
Lemma update_price_same_millisecond :
  exists updated store',
    put_product [mug] 5400 "mug-1" (price_only price_12_5) = (Ok updated, store')
    /\ updated_at updated = updated_at mug.
Proof. eexists. eexists. split; [vm_compute; reflexivity | reflexivity]. Qed.

(** C9, as the code has it.  On an existing product and a partial that
    supplies at least one non-null field: when the store takes the update
    (the integers of the partial within 64 bits, the result within the size
    limit), it reports one matched document, and the handler fails exactly
    when the store reports no modified document, which is when the fields
    leave the document as it is; it then answers the [InternalError]
    "Failed to update product", and in the other case it returns the updated
    product as read back from the store.  When the store refuses the update
    nothing is reported: the handler answers 500 with the exception and the
    collection stays as it was. *)
Theorem update_internal_error_iff store utcnow product_id existing partial :
  find_one store product_id = Some existing ->
  ~ supplies_nothing partial ->
  let update_data := collect_update_data partial ++ [set_updated_at utcnow] in
  (store_takes_update existing update_data ->
   exists report store',
     update_one store product_id update_data = inr (report, store')
     /\ matched_count report = 1
     /\ (modified_count report = 0 \/ modified_count report = 1)
     /\ ((exists e, fst (update_product store utcnow product_id partial) = Err e)
         <-> modified_count report = 0)
     /\ (modified_count report = 0 ->
         update_product store utcnow product_id partial
         = (Err (InternalError "Failed to update product"), store))
     /\ (modified_count report = 0 <-> apply_sets existing update_data = existing)
     /\ (modified_count report = 1 ->
         exists updated,
           find_one store' product_id = Some updated
           /\ updated = apply_sets existing update_data
           /\ update_product store utcnow product_id partial = (Ok updated, store')))
  /\ (~ store_takes_update existing update_data ->
      exists e,
        update_one store product_id update_data = inl e
        /\ update_product store utcnow product_id partial
           = (Err (InternalErrorCaused "Failed to update product" e), store)
        /\ status_code (InternalErrorCaused "Failed to update product" e) = 500).
Proof.
  intros Hfind Hsome update_data.
  assert (Hdata : collect_update_data partial <> []).
  { intros E. apply Hsome. now apply collect_nothing. }
  split.
  - intros Htakes.
    pose proof (store_takes_update_accepted store product_id existing update_data
                  Hfind Htakes) as Haccepted.
    pose proof (update_product_supplied store utcnow product_id existing partial
                  Hfind Hdata) as Hupd.
    cbv zeta in Hupd. fold update_data in Hupd. specialize (Hupd Haccepted).
    destruct (update_first_present store product_id update_data existing Hfind)
      as (s' & Hone & Hfind' & _).
    rewrite Hone in Haccepted, Hupd. cbn [snd] in Hupd.
    eexists. exists s'. split; [exact Haccepted|].
    cbn [matched_count modified_count]. rewrite Hupd.
    destruct (Product_eq_dec (apply_sets existing update_data) existing) as [Eq|Ne].
    + split; [reflexivity|]. split; [now left|]. repeat split; auto; try discriminate.
      intros _. eexists. reflexivity.
    + split; [reflexivity|]. split; [now right|]. repeat split;
        try discriminate; try contradiction.
      * intros (e & H). discriminate H.
      * intros _. exists (apply_sets existing update_data). auto.
  - intros Hnot.
    destruct (store_refuses_update store product_id existing update_data Hfind Hnot)
      as (e & Hrefused).
    exists e. split; [exact Hrefused|]. split; [|reflexivity].
    now apply (update_product_refused store utcnow product_id existing).
Qed.

Lemma update_internal_error_iff_witness :
  update_product [mug] 5000 "mug-1" (price_only price_9_99)
  = (Err (InternalError "Failed to update product"), [mug])
  /\ exists report store',
       update_one [mug] "mug-1" [set_price price_9_99; set_updated_at 5000]
       = inr (report, store')
       /\ modified_count report = 0.
Proof.
  assert (Hsome : ~ supplies_nothing (price_only price_9_99)).
  { intros (_ & _ & H & _). discriminate H. }
  destruct (update_internal_error_iff [mug] 5000 "mug-1" mug (price_only price_9_99)
              eq_refl Hsome) as [Htaken _].
  destruct (Htaken (price_update_taken mug price_9_99 5000))
    as (report & store' & Hone & _ & _ & _ & Herr & [_ Hzero] & _).
  assert (Hcount : modified_count report = 0) by (apply Hzero; reflexivity).
  split; [exact (Herr Hcount)|].
  exists report, store'. split; [exact Hone | exact Hcount].
Defined.

(** C9 as stated fails: a partial with a stock quantity of 2^63 passes
    validation, yet the driver cannot encode it; the update of the existing
    mug answers 500 although the store reports no count at all, and the
    collection stays as it was. *)
Lemma update_stock_beyond_int64 :
  find_one [mug] "mug-1" = Some mug
  /\ ~ supplies_nothing (stock_only 9223372036854775808)
  /\ ProductUpdate_errors (stock_only 9223372036854775808) = []
  /\ update_one [mug] "mug-1"
       (collect_update_data (stock_only 9223372036854775808) ++ [set_updated_at 7250])
     = inl OverflowError
  /\ update_product [mug] 7250 "mug-1" (stock_only 9223372036854775808)
     = (Err (InternalErrorCaused "Failed to update product" OverflowError), [mug])
  /\ status_code (InternalErrorCaused "Failed to update product" OverflowError) = 500.
Proof.
  split; [reflexivity|]. split.
  - intros (_ & _ & _ & _ & H & _). discriminate H.
  - repeat split.
Qed.

(** The size limit has the same effect: putting a text as long as the
    largest document in [image_url] passes validation, and the update
    answers 500 with the collection as it was. *)
Lemma update_picture_beyond_size :
  ProductUpdate_errors (image_url_only text_16MiB) = []
  /\ update_product [mug] 7250 "mug-1" (image_url_only text_16MiB)
     = (Err (InternalErrorCaused "Failed to update product" TooLarge), [mug]).
Proof.
  split; [reflexivity|].
  apply (update_product_refused [mug] 7250 "mug-1" mug); [reflexivity | discriminate |].
  change (collect_update_data (image_url_only text_16MiB) ++ [set_updated_at 7250])
    with [set_image_url text_16MiB; set_updated_at 7250].
  apply (update_one_too_large [mug] "mug-1" _ mug); [reflexivity | reflexivity | |].
  - apply Z.le_lt_trans with (m := utf8_length text_16MiB).
    + rewrite utf8_length_text_16MiB. unfold max_bson_size. lia.
    + now apply bson_size_image_url.
  - vm_compute. discriminate.
Qed.

(** * The invariant of the collection *)

Lemma check_str_ok field lo hi v :
  check_str field lo hi v = [] -> length_within lo hi v.
Proof.
  unfold check_str, length_within.
  destruct (String.length v <? lo)%nat eqn:E1; [discriminate|].
  destruct (hi <? String.length v)%nat eqn:E2; [discriminate|].
  intros _. apply Nat.ltb_ge in E1, E2. lia.
Qed.

Lemma check_price_ok v : check_price v = [] -> float_gt0 v = true.
Proof. unfold check_price. destruct (float_gt0 v); [reflexivity | discriminate]. Qed.

Lemma check_stock_ok v : check_stock v = [] -> 0 <= v.
Proof.
  unfold check_stock. destruct (0 <=? v) eqn:E; [|discriminate].
  intros _. now apply Z.leb_le.
Qed.

Lemma app_nil_both {A} (l1 l2 : list A) : l1 ++ l2 = [] -> l1 = [] /\ l2 = [].
Proof. destruct l1; [now split | discriminate]. Qed.

Ltac split_errors H :=
  repeat match type of H with
    | _ ++ _ = [] =>
        let H1 := fresh "Hok" in
        apply app_nil_both in H; destruct H as [H1 H]
    end.

Lemma parsed_within_constraints body input :
  ProductCreate_parse body = inr input -> field_constraints input.
Proof.
  intros Hparse.
  destruct (ProductCreate_parse_inr _ _ Hparse) as (Herr & Hn & Hd & Hp & Hc & Hq & _).
  unfold ProductCreate_errors in Herr. rewrite Hn, Hd, Hp, Hc, Hq in Herr.
  simpl in Herr. split_errors Herr.
  constructor; eauto using check_str_ok, check_price_ok, check_stock_ok.
Qed.

Lemma validated_sets_within_constraints body :
  ProductUpdate_errors body = [] ->
  Forall set_within_constraints (collect_update_data body).
Proof.
  unfold ProductUpdate_errors, collect_update_data. intros Herr.
  split_errors Herr.
  repeat (apply Forall_app; split);
    match goal with
    | |- Forall _ (set_of _ ?s) =>
        destruct s; simpl in *;
        repeat first [apply Forall_nil | apply Forall_cons]; simpl
    end;
    eauto using check_str_ok, check_price_ok, check_stock_ok.
Qed.

Lemma apply_set_constraints (doc : Product) f :
  set_within_constraints f -> field_constraints doc ->
  field_constraints (apply_set doc f).
Proof.
  intros Hf [Hn Hd Hp Hc Hq]. destruct f; simpl in Hf; constructor; simpl; assumption.
Qed.

Lemma apply_sets_constraints data :
  forall doc : Product,
    Forall set_within_constraints data -> field_constraints doc ->
    field_constraints (apply_sets doc data).
Proof.
  unfold apply_sets.
  induction data as [|f data IH]; intros doc Hall Hdoc; simpl; [exact Hdoc|].
  inversion Hall; subst. apply IH; [assumption|].
  now apply apply_set_constraints.
Qed.

Lemma NoDup_snoc {A} (l : list A) (x : A) :
  NoDup l -> ~ In x l -> NoDup (l ++ [x]).
Proof.
  induction l as [|a l IH]; simpl; intros ND Hx.
  - constructor; [intros [] | constructor].
  - inversion ND as [|? ? Ha ND']; subst. constructor.
    + rewrite in_app_iff. intros [H|[H|[]]]; [now apply Ha | subst; apply Hx; now left].
    + apply IH; [exact ND'|]. intros H; apply Hx; now right.
Qed.

Lemma store_inv_sample : store_inv [mug].
Proof.
  split.
  - constructor; [|constructor]. split.
    + constructor; unfold length_within; simpl; try lia; reflexivity.
    + simpl. lia.
  - simpl. constructor; [intros [] | constructor].
Qed.

(** C7, as the code has it.  Each request that can change the collection
    preserves the invariant (field constraints, unique ids,
    [created_at <= updated_at]) whatever the body, provided the id generated
    for a create is not in the collection and the clock read by an update is
    not before the creation instant of the product. *)
Theorem requests_preserve_store_inv store r :
  store_inv store ->
  environment_ok store r ->
  store_inv (serve store r).
Proof.
  intros [Hwf Hnd] Henv.
  destruct r as [uuid4 utcnow body | utcnow pid body | pid]; simpl in *.
  - unfold post_product.
    destruct (ProductCreate_parse body) as [errors|input] eqn:Hparse;
      [now split|].
    destruct (create_product_store store uuid4 utcnow input) as [->| ->];
      [now split|].
    split.
    + apply Forall_app. split; [exact Hwf|].
      constructor; [|constructor]. split; simpl; [|lia].
      now apply (parsed_within_constraints body).
    + rewrite map_app. simpl. now apply NoDup_snoc.
  - destruct (put_product_store store utcnow pid body) as [->|[Herr ->]];
      [now split|].
    split; [|now rewrite update_first_ids].
    destruct (find_one store pid) as [doc|] eqn:Hfind.
    + destruct (update_first_present store pid
                  (collect_update_data body ++ [set_updated_at utcnow]) doc Hfind)
        as (store' & Hupd & _ & _ & Hin & _).
      rewrite Hupd. simpl. apply Forall_forall. intros x Hx.
      destruct (Hin x Hx) as [->|Hold];
        [|now apply (proj1 (Forall_forall _ _) Hwf)].
      assert (Hdoc : well_formed doc)
        by (apply (proj1 (Forall_forall _ _) Hwf); now apply (find_one_In _ pid)).
      destruct Hdoc as [Hfields _]. split.
      * apply apply_sets_constraints; [|exact Hfields].
        apply Forall_app. split; [now apply validated_sets_within_constraints|].
        constructor; [exact I | constructor].
      * rewrite apply_sets_created_at, apply_sets_app. simpl.
        now apply Henv.
    + now rewrite (update_first_absent _ _ _ Hfind).
  - rewrite delete_product_store. split.
    + apply Forall_forall. intros x Hx. apply delete_one_subset in Hx.
      now apply (proj1 (Forall_forall _ _) Hwf).
    + destruct (find_one store pid) as [doc|] eqn:Hfind.
      * destruct (delete_one_present _ _ _ Hfind) as (s' & Hdel & _ & _ & Hnd').
        rewrite Hdel. simpl. auto.
      * now rewrite (delete_one_absent _ _ Hfind).
Qed.

Lemma requests_preserve_store_inv_witness :
  store_inv (serve [mug] (POST "mug-2" 7250 mug_body))
  /\ store_inv (serve [mug] (PUT 7250 "mug-1" (price_only price_12_5)))
  /\ store_inv (serve [mug] (DELETE "mug-1")).
Proof.
  split; [|split].
  - apply (requests_preserve_store_inv [mug] (POST "mug-2" 7250 mug_body) store_inv_sample).
    simpl. intros [H|[]]. discriminate H.
  - apply (requests_preserve_store_inv [mug] (PUT 7250 "mug-1" (price_only price_12_5))
             store_inv_sample).
    simpl. intros p H. injection H as <-. vm_compute. discriminate.
  - apply (requests_preserve_store_inv [mug] (DELETE "mug-1") store_inv_sample).
    exact I.
Defined.

(** C7 as stated fails: the collection holding the mug (created at
    millisecond 5) meets the invariant; after a valid price update served
    with a clock reading of millisecond 3, the stored product has
    [updated_at] before [created_at]. *)
Lemma update_before_creation_breaks_inv :
  store_inv [mug]
  /\ ProductUpdate_errors (price_only price_12_5) = []
  /\ ~ store_inv (serve [mug] (PUT 3000 "mug-1" (price_only price_12_5))).
Proof.
  split; [exact store_inv_sample|]. split; [reflexivity|].
  intros [Hwf _]. vm_compute in Hwf.
  inversion Hwf as [|x l [_ Hle] _]; subst.
  apply Hle. reflexivity.
Qed.

(** * Validation of a create body *)

Lemma check_str_bad field lo hi v :
  (String.length v < lo)%nat \/ (hi < String.length v)%nat ->
  In field (map fst (check_str field lo hi v)).
Proof.
  intros H. unfold check_str.
  destruct (String.length v <? lo)%nat eqn:E1; [now left|].
  destruct (hi <? String.length v)%nat eqn:E2; [now left|].
  apply Nat.ltb_ge in E1, E2. lia.
Qed.

Lemma required_missing {A} field check (s : slot A) :
  missing s -> In field (map fst (required field check s)).
Proof. intros [->| ->]; now left. Qed.

Lemma required_length field lo hi s :
  length_outside lo hi s ->
  In field (map fst (required field (check_str field lo hi) s)).
Proof. intros (v & -> & H). simpl. now apply check_str_bad. Qed.

Lemma violation_named body field :
  violation body field -> In field (map fst (ProductCreate_errors body)).
Proof.
  unfold ProductCreate_errors. rewrite !map_app, !in_app_iff.
  intros [H|H|H|H|H|v H Hv|H|H|H|v H Hv].
  - left. now apply required_missing.
  - left. now apply required_length.
  - right; left. now apply required_missing.
  - right; left. now apply required_length.
  - right; right; left. now apply required_missing.
  - right; right; left. rewrite H. simpl. unfold check_price. rewrite Hv. now left.
  - right; right; right; left. now apply required_missing.
  - right; right; right; left. now apply required_length.
  - right; right; right; right. now apply required_missing.
  - right; right; right; right. rewrite H. simpl. unfold check_stock.
    destruct (0 <=? v) eqn:E; [apply Z.leb_le in E; lia | now left].
Qed.

Lemma ProductCreate_parse_errors body :
  ProductCreate_errors body <> [] ->
  ProductCreate_parse body = inl (ProductCreate_errors body).
Proof.
  intros H. unfold ProductCreate_parse.
  destruct (ProductCreate_errors body); [contradiction | reflexivity].
Qed.

(** C6. A create body that breaks a field constraint (a required field
    absent or [null], a length out of bounds, a price that is not greater
    than 0, a negative stock quantity) is answered with a [ValidationError]
    (status 422) whose errors name the field, and the collection is left as
    it was; so is, in particular, a body whose price is -1. *)
Theorem create_rejects_violation store uuid4 utcnow :
  (forall body field,
      violation body field ->
      exists errors,
        post_product store uuid4 utcnow body = (Err (ValidationError errors), store)
        /\ In field (map fst errors)
        /\ status_code (ValidationError errors) = 422)
  /\ (forall n d c q u,
        exists errors,
          post_product store uuid4 utcnow (Body.mk n d (Given price_minus_1) c q u)
          = (Err (ValidationError errors), store)
          /\ In "price" (map fst errors)).
Proof.
  assert (General : forall body field,
             violation body field ->
             exists errors,
               post_product store uuid4 utcnow body
               = (Err (ValidationError errors), store)
               /\ In field (map fst errors)
               /\ status_code (ValidationError errors) = 422).
  { intros body field Hv. apply violation_named in Hv.
    exists (ProductCreate_errors body). unfold post_product.
    rewrite ProductCreate_parse_errors.
    - repeat split. exact Hv.
    - intros E. rewrite E in Hv. exact Hv. }
  split; [exact General|].
  intros n d c q u.
  destruct (General (Body.mk n d (Given price_minus_1) c q u) "price")
    as (errors & H1 & H2 & _).
  - now apply price_not_positive with (v := price_minus_1).
  - now exists errors.
Qed.

Lemma create_rejects_violation_witness :
  post_product [mug] "mug-2" 7250
    (Body.mk (Given "Mug") (Given "Ceramic mug") (Given price_minus_1)
       (Given "Kitchen") (Given 100) Unset)
  = (Err (ValidationError [("price", not_gt 0)]), [mug]).
Proof.
  destruct (create_rejects_violation [mug] "mug-2" 7250) as [General _].
  destruct (General
              (Body.mk (Given "Mug") (Given "Ceramic mug") (Given price_minus_1)
                 (Given "Kitchen") (Given 100) Unset) "price")
    as (errors & H & _).
  - now apply price_not_positive with (v := price_minus_1).
  - rewrite H. vm_compute in H. now injection H as <-.
Defined.

(** * The category filter on plain text *)

Lemma plain_not_meta c : Regex.is_plain c = true -> Regex.is_meta c = false.
Proof.
  unfold Regex.is_plain. intros H.
  apply andb_prop in H. destruct H as [_ H]. now apply negb_true_iff in H.
Qed.

(** A plain character reaches the last branch of the tokenizer. *)
Lemma tokens_plain_step c rest :
  Regex.is_plain c = true ->
  Regex.tokens (c :: rest)
  = option_map (cons (Regex.TAtom (Regex.Lit c))) (Regex.tokens rest).
Proof.
  intros Hplain. pose proof (plain_not_meta c Hplain) as Hmeta.
  unfold Regex.is_meta, Regex.metacharacters in Hmeta. simpl in Hmeta.
  repeat match type of Hmeta with
    | (_ || _)%bool = false => apply orb_false_elim in Hmeta; destruct Hmeta as [? Hmeta]
    end.
  cbn [Regex.tokens].
  repeat match goal with
    | H : Ascii.eqb c ?x = false |- context [Ascii.eqb c ?x] => rewrite H
    end.
  now rewrite Hplain.
Qed.

Lemma tokens_plain p :
  forallb Regex.is_plain p = true ->
  Regex.tokens p = Some (map (fun c => Regex.TAtom (Regex.Lit c)) p).
Proof.
  induction p as [|c p IH]; [reflexivity|].
  intros H. simpl in H. apply andb_prop in H. destruct H as [Hc Hp].
  rewrite (tokens_plain_step c p Hc), (IH Hp). reflexivity.
Qed.

Lemma items_plain p :
  Regex.items (map (fun c => Regex.TAtom (Regex.Lit c)) p)
  = Some (map (fun c => (Regex.Lit c, Regex.Once)) p).
Proof.
  induction p as [|c p IH]; [reflexivity|].
  cbn [map Regex.items]. destruct p as [|c' p']; [reflexivity|].
  cbn [map] in *. now rewrite IH.
Qed.

Lemma compile_plain category :
  plain_filter category = true ->
  Regex.compile category
  = Some (map (fun c => (Regex.Lit c, Regex.Once)) (list_ascii_of_string category)).
Proof.
  intros H. unfold Regex.compile. rewrite (tokens_plain _ H). apply items_plain.
Qed.

Lemma match_here_plain p :
  forall s,
    Regex.match_here (map (fun c => (Regex.Lit c, Regex.Once)) p) s = prefix_ci p s.
Proof.
  induction p as [|a p IH]; intros s; [reflexivity|].
  destruct s as [|c s]; [reflexivity|].
  cbn [map Regex.match_here prefix_ci Regex.atom_matches]. now rewrite IH.
Qed.

Lemma search_plain p s :
  Regex.search (map (fun c => (Regex.Lit c, Regex.Once)) p) s = infix_ci p s.
Proof.
  induction s as [|c s IH]; cbn [Regex.search infix_ci]; rewrite match_here_plain;
    [reflexivity | now rewrite IH].
Qed.

(** [prefix_ci] and [infix_ci] decide what their names say. *)
Lemma prefix_ci_spec p :
  forall s,
    prefix_ci p s = true
    <-> exists post, map Regex.to_lower s = map Regex.to_lower p ++ post.
Proof.
  induction p as [|a p IH]; intros s; simpl.
  - split; [intros _; now exists (map Regex.to_lower s) | reflexivity].
  - destruct s as [|c s]; simpl.
    + split; [discriminate | intros (post & H); discriminate H].
    + rewrite andb_true_iff, Ascii.eqb_eq, IH. split.
      * intros (-> & post & ->). now exists post.
      * intros (post & H). injection H as -> ->. split; [reflexivity | now exists post].
Qed.

Lemma infix_ci_spec p s :
  infix_ci p s = true
  <-> exists pre post, map Regex.to_lower s = pre ++ map Regex.to_lower p ++ post.
Proof.
  induction s as [|c s IH]; cbn [infix_ci]; rewrite orb_true_iff, prefix_ci_spec.
  - split.
    + intros [(post & H)|H]; [now exists [], post | discriminate].
    + intros (pre & post & H). left. destruct pre; [now exists post|discriminate H].
  - rewrite IH. split.
    + intros [(post & H)|(pre & post & H)].
      * now exists [], post.
      * exists (Regex.to_lower c :: pre), post. simpl. now rewrite H.
    + intros (pre & post & H). destruct pre as [|x pre].
      * left. now exists post.
      * right. simpl in H. injection H as _ H. now exists pre, post.
Qed.

Lemma contains_cib_spec sub s : contains_cib sub s = true <-> contains_ci sub s.
Proof. unfold contains_cib, contains_ci, fold_case. apply infix_ci_spec. Qed.

(** * Sorting and paging *)

Lemma insert_desc_In doc sorted x :
  In x (insert_desc doc sorted) <-> x = doc \/ In x sorted.
Proof.
  induction sorted as [|d rest IH]; simpl.
  - intuition congruence.
  - destruct (created_at d <=? created_at doc); simpl; [intuition congruence|].
    rewrite IH. intuition congruence.
Qed.

Lemma insert_desc_sorted doc sorted :
  created_at_descending sorted -> created_at_descending (insert_desc doc sorted).
Proof.
  unfold created_at_descending.
  induction sorted as [|d rest IH]; simpl; intros Hs.
  - constructor; [constructor | constructor].
  - inversion Hs as [|? ? Hrest Hall]; subst.
    destruct (created_at d <=? created_at doc) eqn:E.
    + apply Z.leb_le in E. constructor; [exact Hs|].
      constructor; [exact E|].
      apply Forall_forall. intros x Hx.
      pose proof (proj1 (Forall_forall _ _) Hall x Hx). simpl in *. lia.
    + apply Z.leb_gt in E. constructor; [now apply IH|].
      apply Forall_forall. intros x Hx. apply insert_desc_In in Hx.
      destruct Hx as [->|Hx]; [lia|].
      now apply (proj1 (Forall_forall _ _) Hall).
Qed.

Lemma sort_created_at_desc_sorted docs :
  created_at_descending (sort_created_at_desc docs).
Proof.
  induction docs as [|d docs IH]; simpl.
  - constructor.
  - now apply insert_desc_sorted.
Qed.

Lemma sort_created_at_desc_In docs x :
  In x (sort_created_at_desc docs) <-> In x docs.
Proof.
  induction docs as [|d docs IH]; simpl; [reflexivity|].
  rewrite insert_desc_In, IH. intuition congruence.
Qed.

Lemma skipn_sorted n :
  forall l, created_at_descending l -> created_at_descending (skipn n l).
Proof.
  unfold created_at_descending.
  induction n as [|n IH]; intros l Hs; [exact Hs|].
  destruct l as [|d l]; [constructor|]. simpl. apply IH. now inversion Hs.
Qed.

Lemma firstn_In {A} n : forall (l : list A) x, In x (firstn n l) -> In x l.
Proof.
  induction n as [|n IH]; intros l x; simpl; [intros []|].
  destruct l as [|a l]; simpl; [intros []|].
  intros [->|H]; [now left | right; auto].
Qed.

Lemma skipn_In {A} n : forall (l : list A) x, In x (skipn n l) -> In x l.
Proof.
  induction n as [|n IH]; intros l x; simpl; [auto|].
  destruct l as [|a l]; simpl; [intros []|]. intros H; right; auto.
Qed.

Lemma firstn_sorted n :
  forall l, created_at_descending l -> created_at_descending (firstn n l).
Proof.
  unfold created_at_descending.
  induction n as [|n IH]; intros l Hs; [constructor|].
  destruct l as [|d l]; [constructor|]. simpl.
  inversion Hs as [|? ? Hrest Hall]; subst. constructor; [now apply IH|].
  apply Forall_forall. intros x Hx. apply firstn_In in Hx.
  now apply (proj1 (Forall_forall _ _) Hall).
Qed.

Lemma map_product_helper l : map product_helper l = l.
Proof.
  induction l as [|p l IH]; simpl; [reflexivity|].
  now rewrite product_helper_same, IH.
Qed.

Lemma apply_limit_positive limit docs :
  0 < limit -> apply_limit limit docs = firstn (Z.to_nat limit) docs.
Proof.
  intros H. unfold apply_limit.
  destruct (limit =? 0) eqn:E; [apply Z.eqb_eq in E; lia|].
  now rewrite Z.abs_eq by lia.
Qed.

Lemma filter_all {A} (f : A -> bool) l :
  (forall x, f x = true) -> filter f l = l.
Proof.
  intros H. induction l as [|a l IH]; simpl; [reflexivity|].
  now rewrite H, IH.
Qed.

(** * Listing *)

Lemma fits_int64_range v : 0 <= v <= max_int64 -> fits_int64 v = true.
Proof.
  intros H. unfold fits_int64. apply andb_true_intro.
  split; apply Z.leb_le; unfold max_int64 in *; lia.
Qed.

Section ListingFacts.

Variable pcre_other : string -> option (string -> bool).

(** What the cursor returns for a non-negative skip and a positive limit,
    both within 64 bits. *)
Lemma find_skip_limit_sort_page store q skip limit docs :
  0 <= skip <= max_int64 -> 0 < limit <= max_int64 ->
  find pcre_other store q = inr docs ->
  find_skip_limit_sort pcre_other store q skip limit
  = inr (page skip limit (sort_created_at_desc docs)).
Proof.
  intros Hskip Hlimit Hfind. unfold find_skip_limit_sort, page.
  destruct (skip <? 0) eqn:E; [apply Z.ltb_lt in E; lia|].
  rewrite (fits_int64_range skip), (fits_int64_range (Z.abs limit)) by lia.
  cbn [andb negb]. rewrite Hfind. now rewrite apply_limit_positive by lia.
Qed.

Lemma find_subset store q docs :
  find pcre_other store q = inr docs -> forall p, In p docs -> In p store.
Proof.
  destruct q as [|pattern]; simpl.
  - intros H; injection H as <-. auto.
  - destruct (regex_i pcre_other pattern); [|discriminate].
    intros H; injection H as <-. intros p Hp. now apply filter_In in Hp.
Qed.

Lemma page_props skip limit docs :
  0 < limit ->
  created_at_descending docs ->
  Z.of_nat (List.length (page skip limit docs)) <= limit
  /\ created_at_descending (page skip limit docs)
  /\ (forall p, In p (page skip limit docs) -> In p docs).
Proof.
  intros Hlimit Hsorted. unfold page. repeat split.
  - rewrite length_firstn. lia.
  - now apply firstn_sorted, skipn_sorted.
  - intros p Hp. apply firstn_In in Hp. now apply skipn_In in Hp.
Qed.

Lemma find_plain store text :
  plain_filter text = true ->
  find pcre_other store (category_regex text)
  = inr (filter (fun p : Product => contains_cib text (category p)) store).
Proof.
  intros Hplain. unfold find, regex_i. rewrite (compile_plain _ Hplain).
  f_equal. apply filter_ext. intros p. apply search_plain.
Qed.

(** C3, as the code has it.  For a non-negative skip and a positive limit,
    both within 64 bits: whatever the filter, a listing that answers returns
    at most [limit] products of the collection, latest [created_at] first,
    and it answers unless the engine rejects the filter as a pattern;
    without a filter it is the page of the whole collection; with a filter
    made of plain characters it is the page of exactly the products whose
    category contains the filter as a case-insensitive substring.  Other
    filters are read as regular expressions. *)
Theorem list_page store skip limit :
  0 <= skip <= max_int64 -> 0 < limit <= max_int64 ->
  (forall category products,
      get_products pcre_other store skip limit category = Ok products ->
      Z.of_nat (List.length products) <= limit
      /\ created_at_descending products
      /\ (forall p, In p products -> In p store))
  /\ (forall category,
        (forall c, truthy category = Some c -> regex_i pcre_other c <> None) ->
        exists products,
          get_products pcre_other store skip limit category = Ok products)
  /\ get_products pcre_other store skip limit None
     = Ok (page skip limit (sort_created_at_desc store))
  /\ (forall text,
        plain_filter text = true ->
        get_products pcre_other store skip limit (Some text)
        = Ok (page skip limit
                (sort_created_at_desc
                   (filter (fun p : Product => contains_cib text (category p))
                      store))))
  /\ (forall sub s, contains_cib sub s = true <-> contains_ci sub s).
Proof.
  intros Hskip Hlimit. split; [|split; [|split; [|split]]].
  - intros category products. unfold get_products.
    set (q := match truthy category with
              | Some c => category_regex c
              | None => all_documents
              end).
    destruct (find pcre_other store q) as [e|docs] eqn:Hfind.
    + unfold find_skip_limit_sort. rewrite Hfind.
      destruct (skip <? 0); [discriminate|].
      destruct (negb _); discriminate.
    + rewrite (find_skip_limit_sort_page store q skip limit docs Hskip Hlimit Hfind).
      rewrite map_product_helper. intros H; injection H as <-.
      destruct (page_props skip limit (sort_created_at_desc docs) (proj1 Hlimit)
                  (sort_created_at_desc_sorted docs)) as (Hlen & Hsorted & Hin).
      repeat split; try assumption.
      intros p Hp. apply (find_subset store q docs Hfind).
      now apply sort_created_at_desc_In, Hin.
  - intros filter_text Haccepted. unfold get_products.
    destruct (truthy filter_text) as [c|].
    + destruct (regex_i pcre_other c) as [matches|] eqn:Hre;
        [|now destruct (Haccepted c eq_refl)].
      rewrite (find_skip_limit_sort_page store (category_regex c) skip limit
                 (filter (fun doc : Product => matches (category doc)) store));
        auto; [eauto | simpl; now rewrite Hre].
    + rewrite (find_skip_limit_sort_page store all_documents skip limit store);
        eauto.
  - unfold get_products. simpl truthy. cbv iota.
    rewrite (find_skip_limit_sort_page store all_documents skip limit store);
      auto. now rewrite map_product_helper.
  - intros text Hplain. unfold get_products.
    destruct text as [|c rest] eqn:Ecat.
    + simpl truthy. cbv iota.
      rewrite (find_skip_limit_sort_page store all_documents skip limit store);
        auto.
      rewrite map_product_helper, filter_all; [reflexivity|].
      intros p. unfold contains_cib. simpl. now destruct (list_ascii_of_string _).
    + simpl truthy. cbv iota. rewrite <- Ecat in *.
      rewrite (find_skip_limit_sort_page store (category_regex text) skip limit
                 _ Hskip Hlimit (find_plain store text Hplain)).
      now rewrite map_product_helper.
  - apply contains_cib_spec.
Qed.

(** C10.  For a non-empty category, the category endpoint and the listing
    with that category as filter return the same sequence of products, and
    one fails exactly when the other does, for every collection, skip and
    limit. *)
Theorem category_endpoint_same_as_list store category skip limit :
  category <> "" ->
  products_of (get_products_by_category pcre_other store category skip limit)
  = products_of (get_products pcre_other store skip limit (Some category)).
Proof.
  intros Hne. unfold get_products_by_category, get_products.
  destruct category as [|c rest]; [contradiction|]. simpl truthy. cbv iota.
  destruct (find_skip_limit_sort pcre_other store _ skip limit); reflexivity.
Qed.

End ListingFacts.

Lemma list_page_witness :
  get_products reject_other [mug] 0 50 (Some "kit") = Ok [mug]
  /\ get_products reject_other [mug] 0 50 (Some "garden") = Ok [].
Proof.
  assert (Hskip : 0 <= 0 <= max_int64) by (unfold max_int64; lia).
  assert (Hlimit : 0 < 50 <= max_int64) by (unfold max_int64; lia).
  destruct (list_page reject_other [mug] 0 50 Hskip Hlimit) as (_ & _ & _ & Hplain & _).
  split.
  - rewrite (Hplain "kit" eq_refl). reflexivity.
  - rewrite (Hplain "garden" eq_refl). reflexivity.
Defined.

Lemma category_endpoint_same_as_list_witness :
  products_of (get_products_by_category reject_other [mug] "kit" 0 50)
  = products_of (get_products reject_other [mug] 0 50 (Some "kit")).
Proof.
  apply (category_endpoint_same_as_list reject_other [mug] "kit" 0 50).
  discriminate.
Defined.

(** C3 as stated fails: the filter [.] is a pattern that any non-empty
    category matches, so the listing returns the mug, whose category
    "Kitchen" does not contain a full stop. *)
Lemma dot_filter_is_a_pattern :
  get_products reject_other [mug] 0 50 (Some ".") = Ok [mug]
  /\ ~ contains_ci "." (category mug).
Proof.
  split; [reflexivity|].
  intros H. apply contains_cib_spec in H. discriminate H.
Qed.

(** * The scenario of the specification

    Create the mug, set its stock to 80 some milliseconds later, delete it,
    then read it. *)

Example mug_scenario :
  let (created, s1) := post_product [] "mug-1" 5400 mug_body in
  let (updated, s2) := put_product s1 7250 "mug-1" (stock_only 80) in
  let (deleted, s3) := delete_product s2 "mug-1" in
  created = Ok mug
  /\ updated = Ok (mkProduct
                    (mkProductBase "Mug" "Ceramic mug" price_9_99 "Kitchen" 80 None)
                    "mug-1" 5000 7000)
  /\ deleted = Ok tt
  /\ get_product s3 "mug-1" = Err (NotFound "mug-1").
Proof. vm_compute. repeat split. Qed.

(** * More on updates *)

Lemma slot_or_none {A} (s : slot A) (stored : A) :
  slot_value s = None -> slot_or s stored = stored.
Proof. destruct s; [reflexivity | reflexivity | discriminate]. Qed.

Lemma slot_or_some_none {A} (s : slot A) (stored : option A) :
  slot_value s = None -> slot_or_some s stored = stored.
Proof. destruct s; [reflexivity | reflexivity | discriminate]. Qed.

Lemma slot_or_twice {A} (s : slot A) (stored : A) :
  slot_or s (slot_or s stored) = slot_or s stored.
Proof. now destruct s. Qed.

Lemma slot_or_some_twice {A} (s : slot A) (stored : option A) :
  slot_or_some s (slot_or_some s stored) = slot_or_some s stored.
Proof. now destruct s. Qed.

(** The [$set] document of a partial, applied to a document, in closed
    form. *)
Lemma apply_sets_patched doc partial utcnow :
  apply_sets doc (collect_update_data partial ++ [set_updated_at utcnow])
  = patched doc partial utcnow.
Proof.
  destruct doc as [[n d p c q u] i ca ua].
  destruct partial as [sn sd sp sc sq su].
  destruct sn, sd, sp, sc, sq, su; reflexivity.
Qed.

(** The four ways an update of an existing product ends. *)
Lemma update_product_cases store utcnow pid existing partial :
  find_one store pid = Some existing ->
  let update_data := collect_update_data partial ++ [set_updated_at utcnow] in
  (supplies_nothing partial
   /\ update_product store utcnow pid partial = (Ok existing, store))
  \/ (~ supplies_nothing partial
      /\ store_takes_update existing update_data
      /\ patched existing partial utcnow = existing
      /\ update_product store utcnow pid partial
         = (Err (InternalError "Failed to update product"), store))
  \/ (~ supplies_nothing partial
      /\ store_takes_update existing update_data
      /\ patched existing partial utcnow <> existing
      /\ update_product store utcnow pid partial
         = (Ok (patched existing partial utcnow),
            snd (update_first store pid update_data))
      /\ find_one (snd (update_first store pid update_data)) pid
         = Some (patched existing partial utcnow))
  \/ (~ supplies_nothing partial
      /\ ~ store_takes_update existing update_data
      /\ exists e,
           update_product store utcnow pid partial
           = (Err (InternalErrorCaused "Failed to update product" e), store)).
Proof.
  intros Hfind update_data.
  assert (Hd : collect_update_data partial = [] \/ collect_update_data partial <> []).
  { destruct (collect_update_data partial); [now left | right; discriminate]. }
  destruct Hd as [E|Hdata].
  - left. split; [now apply collect_nothing|].
    unfold update_product. now rewrite Hfind, E, product_helper_same.
  - right.
    assert (Hsome : ~ supplies_nothing partial).
    { intros H. apply collect_nothing in H. contradiction. }
    assert (Hdec : store_takes_update existing update_data
                   \/ ~ store_takes_update existing update_data).
    { unfold store_takes_update.
      destruct (forallb set_encodable update_data);
        destruct (result_too_large existing (apply_sets existing update_data));
        intuition discriminate. }
    destruct Hdec as [Htakes|Hnot].
    + pose proof (update_product_supplied store utcnow pid existing partial
                    Hfind Hdata) as Hupd.
      cbv zeta in Hupd. fold update_data in Hupd.
      specialize (Hupd (store_takes_update_accepted store pid existing update_data
                          Hfind Htakes)).
      unfold update_data in Hupd. rewrite apply_sets_patched in Hupd.
      fold update_data in Hupd.
      destruct (update_first_present store pid update_data existing Hfind)
        as (s' & Hone & Hfind' & _).
      unfold update_data in Hfind'. rewrite apply_sets_patched in Hfind'.
      assert (Hs' : snd (update_first store pid update_data) = s')
        by now rewrite Hone.
      rewrite <- Hs' in Hfind'.
      destruct (Product_eq_dec (patched existing partial utcnow) existing) as [Eq|Ne].
      * left. auto.
      * right; left.
        split; [exact Hsome|]. split; [exact Htakes|]. split; [exact Ne|].
        split; [exact Hupd | exact Hfind'].
    + right; right. split; [exact Hsome|]. split; [exact Hnot|].
      destruct (store_refuses_update store pid existing update_data Hfind Hnot)
        as (e & Hrefused).
      exists e. now apply (update_product_refused store utcnow pid existing).
Qed.

Lemma update_first_created_at store pid data :
  map created_at (snd (update_first store pid data)) = map created_at store.
Proof.
  induction store as [|d rest IH]; simpl; [reflexivity|].
  destruct (string_dec (id d) pid).
  - destruct (Product_eq_dec (apply_sets d data) d); simpl; [reflexivity|].
    now rewrite apply_sets_created_at.
  - destruct (update_first rest pid data) as [r rest'] eqn:E. simpl in *.
    now rewrite IH.
Qed.

(** X1. Partial replacement, field by field.  When the update of an existing
    product answers with a product, each field of the answer is the value
    the partial supplies for it, or the stored value when the key is absent
    or [null]; [id] and [created_at] are the stored ones; [updated_at] is
    the clock reading (in milliseconds) when a field was supplied and the
    stored instant otherwise; and reading the id afterwards returns that
    same product. *)
Theorem update_patches_fields store utcnow product_id existing partial updated store' :
  find_one store product_id = Some existing ->
  update_product store utcnow product_id partial = (Ok updated, store') ->
  name updated = slot_or (Body.name partial) (name existing)
  /\ description updated = slot_or (Body.description partial) (description existing)
  /\ price updated = slot_or (Body.price partial) (price existing)
  /\ category updated = slot_or (Body.category partial) (category existing)
  /\ stock_quantity updated
     = slot_or (Body.stock_quantity partial) (stock_quantity existing)
  /\ image_url updated = slot_or_some (Body.image_url partial) (image_url existing)
  /\ id updated = id existing
  /\ created_at updated = created_at existing
  /\ (supplies_nothing partial -> updated_at updated = updated_at existing)
  /\ (~ supplies_nothing partial -> updated_at updated = bson_datetime utcnow)
  /\ get_product store' product_id = Ok updated.
Proof.
  intros Hfind Hupd.
  destruct (update_product_cases store utcnow product_id existing partial Hfind)
    as [(Hnone & H) | [(_ & _ & _ & H) | [(Hsome & _ & _ & H & Hfind')
                                         | (_ & _ & e & H)]]];
    rewrite H in Hupd; [| discriminate Hupd | | discriminate Hupd].
  - injection Hupd as <- <-.
    destruct Hnone as (Hn & Hd & Hp & Hc & Hq & Hu).
    rewrite !slot_or_none, slot_or_some_none by assumption.
    repeat split; try reflexivity.
    + intros Hsome. exfalso. apply Hsome. repeat split; assumption.
    + unfold get_product. now rewrite Hfind, product_helper_same.
  - injection Hupd as <- <-.
    repeat split; try reflexivity.
    + intros Hnone. contradiction.
    + unfold get_product. now rewrite Hfind', product_helper_same.
Qed.

Lemma update_patches_fields_witness :
  exists updated store',
    update_product [mug; mug2] 7250 "mug-2" (stock_only 80) = (Ok updated, store')
    /\ stock_quantity updated = 80
    /\ price updated = price_9_99
    /\ updated_at updated = 7000
    /\ get_product store' "mug-2" = Ok updated.
Proof.
  destruct (update_product [mug; mug2] 7250 "mug-2" (stock_only 80))
    as [[updated|e] store'] eqn:E; [|discriminate E].
  exists updated, store'.
  destruct (update_patches_fields [mug; mug2] 7250 "mug-2" mug2 (stock_only 80)
              updated store' eq_refl E)
    as (_ & _ & Hp & _ & Hq & _ & _ & _ & _ & Ht & Hget).
  repeat split; try assumption.
  apply Ht. intros (_ & _ & _ & _ & H & _). discriminate H.
Defined.

(** X2. Whatever the partial and however it ends, an update keeps the
    sequence of ids and of creation instants of the collection (so it adds
    and removes nothing), and it leaves the document found under any other
    id as it was. *)
Theorem update_frame store utcnow product_id partial :
  let store' := snd (update_product store utcnow product_id partial) in
  map id store' = map id store
  /\ map created_at store' = map created_at store
  /\ List.length store' = List.length store
  /\ (forall other, other <> product_id ->
        find_one store' other = find_one store other).
Proof.
  cbv zeta.
  destruct (update_product_store store utcnow product_id partial) as [->| ->].
  - repeat split; reflexivity.
  - assert (Hids := update_first_ids store product_id
                      (collect_update_data partial ++ [set_updated_at utcnow])).
    repeat split.
    + exact Hids.
    + apply update_first_created_at.
    + rewrite <- (length_map id), Hids. apply length_map.
    + intros other Hother. now apply update_first_other.
Qed.

(** X3. No update removes the picture of a product: if the stored product
    has an [image_url], then after an update with any partial ([null]
    included) the product stored under that id still has one. *)
Theorem update_keeps_image_url store utcnow product_id existing url partial :
  find_one store product_id = Some existing ->
  image_url existing = Some url ->
  exists after url',
    find_one (snd (update_product store utcnow product_id partial)) product_id
    = Some after
    /\ image_url after = Some url'.
Proof.
  intros Hfind Hurl.
  destruct (update_product_cases store utcnow product_id existing partial Hfind)
    as [(_ & H) | [(_ & _ & _ & H) | [(_ & _ & _ & H & Hfind') | (_ & _ & e & H)]]];
    rewrite H; cbn [snd].
  - now exists existing, url.
  - now exists existing, url.
  - exists (patched existing partial utcnow). rewrite Hfind'. simpl.
    destruct (Body.image_url partial) as [| |v]; simpl; eauto.
  - now exists existing, url.
Qed.

Lemma update_keeps_image_url_witness :
  exists after url',
    find_one
      (snd (update_product [mug_pictured] 7250 "mug-1"
              (Body.mk Unset Unset Unset Unset (Given 80) Null))) "mug-1"
    = Some after
    /\ image_url after = Some url'.
Proof.
  apply (update_keeps_image_url [mug_pictured] 7250 "mug-1" mug_pictured "mug.png");
    reflexivity.
Defined.

(** X4. An update that succeeded with a supplied field fails when it is sent
    again while the clock still reads the same millisecond: the fields
    change nothing any more, the store reports no modification, and the
    handler answers [InternalError], leaving the collection as it is. *)
Theorem update_repeated store utcnow utcnow' product_id existing partial updated store' :
  find_one store product_id = Some existing ->
  ~ supplies_nothing partial ->
  update_product store utcnow product_id partial = (Ok updated, store') ->
  bson_datetime utcnow' = bson_datetime utcnow ->
  update_product store' utcnow' product_id partial
  = (Err (InternalError "Failed to update product"), store').
Proof.
  intros Hfind Hsome Hupd Hclock.
  assert (Hagain : patched (patched existing partial utcnow) partial utcnow'
                   = patched existing partial utcnow).
  { unfold patched. simpl.
    now rewrite !slot_or_twice, slot_or_some_twice, Hclock. }
  destruct (update_product_cases store utcnow product_id existing partial Hfind)
    as [(Hnone & _) | [(_ & _ & _ & H) | [(_ & Htakes & _ & H & Hfind')
                                         | (_ & _ & e & H)]]];
    [contradiction | rewrite H in Hupd; discriminate Hupd |
     | rewrite H in Hupd; discriminate Hupd].
  rewrite H in Hupd. injection Hupd as <- <-.
  destruct (update_product_cases _ utcnow' product_id _ partial Hfind')
    as [(Hnone & _) | [(_ & _ & _ & H') | [(_ & _ & Hne & _) | (_ & Hnot & _)]]];
    [contradiction | exact H' | contradiction |].
  exfalso. apply Hnot. destruct Htakes as [Henc _]. split.
  - rewrite forallb_app in *. apply andb_prop in Henc. destruct Henc as [Henc _].
    now rewrite Henc.
  - rewrite apply_sets_patched, Hagain. unfold result_too_large.
    rewrite Z.ltb_irrefl. apply andb_false_r.
Qed.

Lemma update_repeated_witness :
  exists updated store',
    update_product [mug] 7250 "mug-1" (stock_only 80) = (Ok updated, store')
    /\ update_product store' 7400 "mug-1" (stock_only 80)
       = (Err (InternalError "Failed to update product"), store').
Proof.
  destruct (update_product [mug] 7250 "mug-1" (stock_only 80))
    as [[updated|e] store'] eqn:E; [|discriminate E].
  exists updated, store'. split; [reflexivity|].
  apply (update_repeated [mug] 7250 7400 "mug-1" mug (stock_only 80) updated store');
    [reflexivity | | exact E | reflexivity].
  intros (_ & _ & _ & _ & H & _). discriminate H.
Defined.

(** * More on validation *)

Lemma check_str_error field lo hi v f r :
  In (f, r) (check_str field lo hi v) ->
  f = field /\ ((String.length v < lo)%nat \/ (hi < String.length v)%nat).
Proof.
  unfold check_str.
  destruct (String.length v <? lo)%nat eqn:E1.
  - intros [H|[]]. injection H as <- _. apply Nat.ltb_lt in E1. auto.
  - destruct (hi <? String.length v)%nat eqn:E2; [|intros []].
    intros [H|[]]. injection H as <- _. apply Nat.ltb_lt in E2. auto.
Qed.

Lemma check_price_error v f r :
  In (f, r) (check_price v) -> f = "price" /\ float_gt0 v = false.
Proof.
  unfold check_price. destruct (float_gt0 v); [intros []|].
  intros [H|[]]. injection H as <- _. auto.
Qed.

Lemma check_stock_error v f r :
  In (f, r) (check_stock v) -> f = "stock_quantity" /\ v < 0.
Proof.
  unfold check_stock. destruct (0 <=? v) eqn:E; [intros []|].
  intros [H|[]]. injection H as <- _. apply Z.leb_gt in E. auto.
Qed.

Lemma optional_str_error field lo hi s f r :
  In (f, r) (optional (check_str field lo hi) s) ->
  f = field /\ length_outside lo hi s.
Proof.
  destruct s as [| |v]; simpl; try (intros []).
  intros H. apply check_str_error in H. destruct H as [-> H].
  split; [reflexivity | now exists v].
Qed.

Lemma required_str_error field lo hi s f r :
  In (f, r) (required field (check_str field lo hi) s) ->
  f = field /\ (missing s \/ length_outside lo hi s).
Proof.
  destruct s as [| |v]; simpl.
  - intros [H|[]]. injection H as <- _. split; [reflexivity | left; now left].
  - intros [H|[]]. injection H as <- _. split; [reflexivity | left; now right].
  - intros H. apply check_str_error in H. destruct H as [-> H].
    split; [reflexivity | right; now exists v].
Qed.

Lemma update_error_sound body f r :
  In (f, r) (ProductUpdate_errors body) -> update_violation body f.
Proof.
  unfold ProductUpdate_errors. rewrite !in_app_iff.
  intros [H|[H|[H|[H|H]]]].
  - apply optional_str_error in H. destruct H as [-> H]. now constructor.
  - apply optional_str_error in H. destruct H as [-> H]. now constructor.
  - destruct (Body.price body) as [| |v] eqn:E; simpl in H; try contradiction.
    apply check_price_error in H. destruct H as [-> H].
    now apply update_price_not_positive with (v := v).
  - apply optional_str_error in H. destruct H as [-> H]. now constructor.
  - destruct (Body.stock_quantity body) as [| |v] eqn:E; simpl in H; try contradiction.
    apply check_stock_error in H. destruct H as [-> H].
    now apply update_stock_quantity_negative with (v := v).
Qed.

Lemma update_violation_named body f :
  update_violation body f -> In f (map fst (ProductUpdate_errors body)).
Proof.
  unfold ProductUpdate_errors. rewrite !map_app, !in_app_iff.
  intros [(v & E & H)|(v & E & H)|v E H|(v & E & H)|v E H]; rewrite E; simpl.
  - left. now apply check_str_bad.
  - right; left. now apply check_str_bad.
  - right; right; left. unfold check_price. rewrite H. now left.
  - right; right; right; left. now apply check_str_bad.
  - right; right; right; right. unfold check_stock.
    destruct (0 <=? v) eqn:E'; [apply Z.leb_le in E'; lia | now left].
Qed.

Lemma create_error_sound body f r :
  In (f, r) (ProductCreate_errors body) -> violation body f.
Proof.
  unfold ProductCreate_errors. rewrite !in_app_iff.
  intros [H|[H|[H|[H|H]]]].
  - apply required_str_error in H. destruct H as [-> [H|H]];
      [now apply name_missing | now apply name_length_bounds].
  - apply required_str_error in H. destruct H as [-> [H|H]];
      [now apply description_missing | now apply description_length_bounds].
  - destruct (Body.price body) as [| |v] eqn:E; simpl in H.
    + destruct H as [H|[]]. injection H as <- _. apply price_missing. rewrite E. now left.
    + destruct H as [H|[]]. injection H as <- _. apply price_missing. rewrite E. now right.
    + apply check_price_error in H. destruct H as [-> H].
      now apply price_not_positive with (v := v).
  - apply required_str_error in H. destruct H as [-> [H|H]];
      [now apply category_missing | now apply category_length_bounds].
  - destruct (Body.stock_quantity body) as [| |v] eqn:E; simpl in H.
    + destruct H as [H|[]]. injection H as <- _.
      apply stock_quantity_missing. rewrite E. now left.
    + destruct H as [H|[]]. injection H as <- _.
      apply stock_quantity_missing. rewrite E. now right.
    + apply check_stock_error in H. destruct H as [-> H].
      now apply stock_quantity_negative with (v := v).
Qed.

(** X5. The body of an update is validated before the product is looked
    up.  A body that supplies a value breaking a constraint of
    [ProductUpdate] is answered with a [ValidationError] naming the field
    and the collection is left as it was, whether or not the id exists; and
    an update is answered with a [ValidationError] only for such a body,
    every error naming a field whose supplied value breaks its constraint. *)
Theorem update_validated_first store utcnow product_id body :
  (forall field,
      update_violation body field ->
      exists errors,
        put_product store utcnow product_id body
        = (Err (ValidationError errors), store)
        /\ In field (map fst errors))
  /\ (forall errors,
        fst (put_product store utcnow product_id body) = Err (ValidationError errors) ->
        errors <> []
        /\ forall field r, In (field, r) errors -> update_violation body field).
Proof.
  split.
  - intros field Hv. apply update_violation_named in Hv.
    exists (ProductUpdate_errors body). split; [|exact Hv].
    unfold put_product.
    destruct (ProductUpdate_errors body); [contradiction | reflexivity].
  - intros errors. unfold put_product.
    destruct (ProductUpdate_errors body) as [|e errs] eqn:E.
    + unfold update_product.
      destruct (find_one store product_id); [|discriminate].
      destruct (collect_update_data body); [discriminate|].
      destruct (update_one store product_id _) as [e|[r s']]; [discriminate|].
      destruct (modified_count r =? 1); [|discriminate].
      destruct (find_one s' product_id); discriminate.
    + simpl. intros H; injection H as <-. split; [discriminate|].
      intros field r Hin. apply (update_error_sound body field r).
      now rewrite E.
Qed.

Lemma update_validated_first_witness :
  put_product [mug] 7250 "no-such-id" (price_only price_minus_1)
  = (Err (ValidationError [("price", not_gt 0)]), [mug]).
Proof.
  destruct (update_validated_first [mug] 7250 "no-such-id" (price_only price_minus_1))
    as [Hrejects _].
  destruct (Hrejects "price") as (errors & H & _).
  - now apply update_price_not_positive with (v := price_minus_1).
  - rewrite H. vm_compute in H. now injection H as <-.
Defined.

(** X6. A create is refused only for a reason.  When it answers with an
    error the collection is as it was, and the error is either a
    [ValidationError] whose every entry names a field of the body that
    breaks a constraint, or the 500 of a store that does not take the
    document of a body that passed validation (an integer outside 64 bits,
    a document over the size limit).  A body without a field that breaks a
    constraint passes validation, and is answered with a product when the
    store takes its document. *)
Theorem create_refused_only_for_violation store uuid4 utcnow body :
  (forall e store',
      post_product store uuid4 utcnow body = (Err e, store') ->
      store' = store
      /\ ((exists errors,
             e = ValidationError errors
             /\ errors <> []
             /\ forall field r, In (field, r) errors -> violation body field)
          \/ (exists input cause,
                ProductCreate_parse body = inr input
                /\ ~ store_takes (mkProduct input uuid4 utcnow utcnow)
                /\ (cause = OverflowError \/ cause = TooLarge)
                /\ e = InternalErrorCaused "Failed to create product" cause)))
  /\ ((forall field, ~ violation body field) ->
      exists input,
        ProductCreate_parse body = inr input
        /\ (store_takes (mkProduct input uuid4 utcnow utcnow) ->
            exists created store',
              post_product store uuid4 utcnow body = (Ok created, store'))).
Proof.
  split.
  - intros e store'. unfold post_product.
    destruct (ProductCreate_parse body) as [errors|input] eqn:Hparse.
    + intros H; injection H as <- <-. split; [reflexivity|]. left.
      destruct (ProductCreate_parse_inl _ _ Hparse) as [-> Hne].
      exists (ProductCreate_errors body). repeat split; [exact Hne|].
      apply create_error_sound.
    + unfold create_product, insert_one. cbn [stock_quantity product_base].
      destruct (fits_int64 (stock_quantity input)) eqn:Hint; cbn [negb].
      * replace (bson_size (mkProduct input uuid4 utcnow utcnow))
          with (bson_size (mkProduct input uuid4 utcnow utcnow)) by reflexivity.
        destruct (max_bson_size <? bson_size (mkProduct input uuid4 utcnow utcnow))
          eqn:Hsize.
        -- intros H; injection H as <- <-. split; [reflexivity|]. right.
           exists input, TooLarge. repeat split; auto.
           intros [_ Hle]. apply Z.ltb_lt in Hsize. lia.
        -- cbn [inserted_id].
           destruct (find_one _ uuid4) as [doc|] eqn:Hfind; [discriminate|].
           exfalso. apply find_one_None in Hfind. apply Hfind.
           rewrite map_app, in_app_iff. right. now left.
      * intros H; injection H as <- <-. split; [reflexivity|]. right.
        exists input, OverflowError. repeat split; auto.
        intros [Hfits _]. cbn [stock_quantity product_base] in Hfits. congruence.
  - intros Hclean.
    destruct (ProductCreate_parse body) as [errors|input] eqn:Hparse.
    + destruct (ProductCreate_parse_inl _ _ Hparse) as [-> Hne].
      destruct (ProductCreate_errors body) as [|[field r] errors] eqn:E;
        [contradiction|].
      exfalso. apply (Hclean field). apply (create_error_sound body field r).
      rewrite E. now left.
    + exists input. split; [reflexivity|]. intros [Hint Hsize].
      unfold post_product. rewrite Hparse.
      unfold create_product, insert_one. rewrite Hint.
      apply Z.ltb_ge in Hsize. rewrite Hsize. cbn [negb inserted_id].
      destruct (find_one _ uuid4) as [doc|] eqn:Hfind; [eauto|].
      exfalso. apply find_one_None in Hfind. apply Hfind.
      rewrite map_app, in_app_iff. right. now left.
Qed.

Lemma create_refused_only_for_violation_witness :
  post_product [mug] "mug-2" 7250
    (Body.mk (Given "Mug") Null (Given price_9_99) (Given "Kitchen") (Given (-3)) Unset)
  = (Err (ValidationError [("description", none_not_allowed);
                           ("stock_quantity", not_ge 0)]), [mug])
  /\ forall field r,
       In (field, r) [("description", none_not_allowed); ("stock_quantity", not_ge 0)] ->
       violation
         (Body.mk (Given "Mug") Null (Given price_9_99) (Given "Kitchen")
            (Given (-3)) Unset) field.
Proof.
  split; [reflexivity|].
  destruct (proj1 (create_refused_only_for_violation [mug] "mug-2" 7250
                     (Body.mk (Given "Mug") Null (Given price_9_99) (Given "Kitchen")
                        (Given (-3)) Unset))
              (ValidationError [("description", none_not_allowed);
                                ("stock_quantity", not_ge 0)])
              [mug] eq_refl)
    as (_ & [(errors & Heq & _ & Hsound) | (input & cause & _ & _ & _ & Heq)]).
  - injection Heq as <-. exact Hsound.
  - discriminate Heq.
Defined.

(** * More on create and delete *)

Lemma delete_one_snoc_fresh store doc :
  find_one store (id doc) = None ->
  delete_one (store ++ [doc]) (id doc) = ({| deleted_count := 1 |}, store).
Proof.
  induction store as [|d rest IH]; simpl.
  - intros _. destruct (string_dec (id doc) (id doc)); [reflexivity | contradiction].
  - destruct (string_dec (id d) (id doc)); [discriminate|].
    intros H. now rewrite (IH H).
Qed.

Lemma delete_one_other store pid other :
  other <> pid ->
  find_one (snd (delete_one store pid)) other = find_one store other.
Proof.
  intros Hne. induction store as [|d rest IH]; simpl; [reflexivity|].
  destruct (string_dec (id d) pid) as [E|E]; simpl.
  - destruct (string_dec (id d) other); [congruence | reflexivity].
  - destruct (delete_one rest pid) as [r rest'] eqn:Ed. simpl in *.
    now rewrite IH.
Qed.

Lemma delete_one_length store pid :
  Z.of_nat (List.length (snd (delete_one store pid)))
  = Z.of_nat (List.length store) - deleted_count (fst (delete_one store pid)).
Proof.
  induction store as [|d rest IH]; [reflexivity|].
  cbn [delete_one]. destruct (string_dec (id d) pid).
  - cbn [snd fst deleted_count List.length]. lia.
  - destruct (delete_one rest pid) as [r rest'] eqn:Ed.
    cbn [snd fst List.length] in *. lia.
Qed.

(** X7. A generated id that a stored product already has is not detected.
    When the store takes the document, the create still appends it, so the
    collection then holds two documents with that id, and the answer is not
    the product just created but the one that was stored before. *)
Theorem create_with_taken_id store uuid4 utcnow product older :
  find_one store uuid4 = Some older ->
  store_takes (mkProduct product uuid4 utcnow utcnow) ->
  create_product store uuid4 utcnow product
  = (Ok older,
     store ++ [mkProduct product uuid4 (bson_datetime utcnow) (bson_datetime utcnow)])
  /\ ~ NoDup (map id (snd (create_product store uuid4 utcnow product))).
Proof.
  intros Hfind [Hint Hsize].
  assert (Hres : create_product store uuid4 utcnow product
                 = (Ok older,
                    store ++ [mkProduct product uuid4 (bson_datetime utcnow)
                                (bson_datetime utcnow)])).
  { unfold create_product, insert_one. rewrite Hint.
    apply Z.ltb_ge in Hsize. rewrite Hsize. unfold bson_encode.
    cbn [negb inserted_id id created_at updated_at product_base].
    now rewrite (find_one_app_l _ _ _ _ Hfind), product_helper_same. }
  split; [exact Hres|].
  rewrite Hres. cbn [snd]. rewrite map_app. simpl. intros ND.
  apply NoDup_remove_2 in ND. apply ND. rewrite app_nil_r.
  apply in_map_iff. exists older.
  split; [now apply (find_one_id store) | now apply (find_one_In store uuid4)].
Qed.

Lemma create_with_taken_id_witness :
  exists store',
    create_product [mug] "mug-1" 9000
      (mkProductBase "Cup" "Paper cup" price_12_5 "Picnic" 7 None)
    = (Ok mug, store')
    /\ List.length store' = 2%nat
    /\ ~ NoDup (map id store').
Proof.
  assert (Htakes : store_takes
                     (mkProduct (mkProductBase "Cup" "Paper cup" price_12_5 "Picnic" 7 None)
                        "mug-1" 9000 9000)).
  { split; [reflexivity | vm_compute; discriminate]. }
  destruct (create_with_taken_id [mug] "mug-1" 9000
              (mkProductBase "Cup" "Paper cup" price_12_5 "Picnic" 7 None)
              mug eq_refl Htakes) as [Hres Hdup].
  eexists. split; [exact Hres|]. split; [reflexivity|].
  rewrite Hres in Hdup. exact Hdup.
Defined.

(** X8. Create, then delete.  After a create with a valid body and a
    generated id that no stored product has, deleting the returned id
    succeeds and gives back the collection as it was before the create. *)
Theorem create_then_delete store uuid4 utcnow body created store' :
  ~ In uuid4 (map id store) ->
  post_product store uuid4 utcnow body = (Ok created, store') ->
  delete_product store' (id created) = (Ok tt, store).
Proof.
  intros Hfresh Hpost. apply find_one_None in Hfresh.
  unfold post_product in Hpost.
  destruct (ProductCreate_parse body) as [errors|input]; [discriminate|].
  set (doc := mkProduct input uuid4 (bson_datetime utcnow) (bson_datetime utcnow)).
  assert (Hfind : find_one (store ++ [doc]) uuid4 = Some doc).
  { rewrite (find_one_app_r _ _ _ Hfresh). simpl.
    destruct (string_dec uuid4 uuid4); [reflexivity | contradiction]. }
  unfold create_product in Hpost.
  destruct (insert_one_cases store (mkProduct input uuid4 utcnow utcnow))
    as [(e & He)|Hin]; rewrite ?He, ?Hin in Hpost; [discriminate Hpost|].
  unfold bson_encode in Hpost.
  cbn [inserted_id id created_at updated_at product_base] in Hpost.
  fold doc in Hpost. rewrite Hfind, product_helper_same in Hpost.
  injection Hpost as <- <-.
  unfold delete_product. now rewrite (delete_one_snoc_fresh store doc Hfresh).
Qed.

Lemma create_then_delete_witness :
  exists created store',
    post_product [mug] "mug-2" 7250 mug_body = (Ok created, store')
    /\ delete_product store' (id created) = (Ok tt, [mug]).
Proof.
  assert (Hfresh : ~ In "mug-2" (map id [mug])).
  { simpl. intros [H|[]]. discriminate H. }
  destruct (post_product [mug] "mug-2" 7250 mug_body) as [[created|e] store'] eqn:E;
    [|discriminate E].
  exists created, store'. split; [reflexivity|].
  exact (create_then_delete [mug] "mug-2" 7250 mug_body created store' Hfresh E).
Defined.

(** X9. A delete succeeds exactly when some stored product has the id; it
    then removes one document, whatever the number of documents with that
    id, and in every case the document found under any other id is as it
    was. *)
Theorem delete_removes_one store product_id :
  (fst (delete_product store product_id) = Ok tt <-> In product_id (map id store))
  /\ (fst (delete_product store product_id) = Ok tt ->
      S (List.length (snd (delete_product store product_id))) = List.length store)
  /\ (forall other, other <> product_id ->
        find_one (snd (delete_product store product_id)) other
        = find_one store other).
Proof.
  assert (Hlen := delete_one_length store product_id).
  destruct (find_one store product_id) as [doc|] eqn:Hfind.
  - assert (Hin : In product_id (map id store)).
    { apply in_map_iff. exists doc.
      split; [now apply (find_one_id store) | now apply (find_one_In store product_id)]. }
    destruct (delete_one_present _ _ _ Hfind) as (s' & Hdel & _).
    split; [|split].
    + unfold delete_product. rewrite Hdel. simpl. tauto.
    + intros _. rewrite delete_product_store. rewrite Hdel in *. simpl in *. lia.
    + intros other Hne. rewrite delete_product_store. now apply delete_one_other.
  - assert (Hin : ~ In product_id (map id store)) by now apply find_one_None.
    split; [|split].
    + unfold delete_product. rewrite (delete_one_absent _ _ Hfind). simpl.
      split; [discriminate | contradiction].
    + unfold delete_product. rewrite (delete_one_absent _ _ Hfind). simpl.
      discriminate.
    + intros other Hne. rewrite delete_product_store. now apply delete_one_other.
Qed.

Lemma delete_removes_one_witness :
  fst (delete_product [mug; mug2; mug_pictured] "mug-1") = Ok tt
  /\ S (List.length (snd (delete_product [mug; mug2; mug_pictured] "mug-1"))) = 3%nat
  /\ find_one (snd (delete_product [mug; mug2; mug_pictured] "mug-1")) "mug-2"
     = Some mug2.
Proof.
  destruct (delete_removes_one [mug; mug2; mug_pictured] "mug-1")
    as (Hiff & Hlen & Hother).
  assert (Hok : fst (delete_product [mug; mug2; mug_pictured] "mug-1") = Ok tt).
  { apply Hiff. simpl. now left. }
  split; [exact Hok|]. split; [exact (Hlen Hok)|].
  rewrite Hother by discriminate. reflexivity.
Defined.

(** * More on listing *)

Lemma insert_desc_perm doc sorted : Permutation (insert_desc doc sorted) (doc :: sorted).
Proof.
  induction sorted as [|d rest IH]; simpl; [reflexivity|].
  destruct (created_at d <=? created_at doc); [reflexivity|].
  rewrite IH. apply perm_swap.
Qed.

Lemma sort_created_at_desc_perm docs : Permutation (sort_created_at_desc docs) docs.
Proof.
  induction docs as [|d docs IH]; simpl; [reflexivity|].
  rewrite insert_desc_perm. now constructor.
Qed.

Lemma firstn_plus {A} n m :
  forall l : list A, firstn (n + m) l = firstn n l ++ firstn m (skipn n l).
Proof.
  induction n as [|n IH]; intros l; [reflexivity|].
  destruct l as [|a l]; simpl; [now rewrite firstn_nil | now rewrite IH].
Qed.

Lemma skipn_plus {A} n m :
  forall l : list A, skipn (n + m) l = skipn m (skipn n l).
Proof.
  induction n as [|n IH]; intros l; [reflexivity|].
  destruct l as [|a l]; simpl; [now rewrite skipn_nil | apply IH].
Qed.

Lemma page_next skip a b docs :
  0 <= skip -> 0 <= a -> 0 <= b ->
  page skip (a + b) docs = page skip a docs ++ page (skip + a) b docs.
Proof.
  intros Hs Ha Hb. unfold page.
  rewrite !Z2Nat.inj_add by assumption.
  now rewrite firstn_plus, skipn_plus.
Qed.

Lemma prefix_ci_fold p p' :
  map Regex.to_lower p = map Regex.to_lower p' ->
  forall s, prefix_ci p s = prefix_ci p' s.
Proof.
  revert p'. induction p as [|a p IH]; intros [|a' p'] H s;
    try discriminate H; [reflexivity|].
  simpl in H. injection H as Ha Hp.
  destruct s as [|c s]; [reflexivity|]. simpl. now rewrite Ha, (IH p' Hp).
Qed.

Lemma infix_ci_fold p p' s :
  map Regex.to_lower p = map Regex.to_lower p' -> infix_ci p s = infix_ci p' s.
Proof.
  intros H. induction s as [|c s IH]; simpl; rewrite (prefix_ci_fold p p' H);
    [reflexivity | now rewrite IH].
Qed.

Section ListingMore.

Variable pcre_other : string -> option (string -> bool).

Lemma find_length store q docs :
  find pcre_other store q = inr docs ->
  (List.length docs <= List.length store)%nat.
Proof.
  destruct q as [|pattern]; simpl.
  - intros H; injection H as <-. lia.
  - destruct (regex_i pcre_other pattern); [|discriminate].
    intros H; injection H as <-. apply filter_length_le.
Qed.

(** The listing of a query that the store accepts, as a page. *)
Lemma get_products_accepted store skip limit filter_text docs :
  0 <= skip <= max_int64 -> 0 < limit <= max_int64 ->
  find pcre_other store
    match truthy filter_text with
    | Some c => category_regex c
    | None => all_documents
    end = inr docs ->
  get_products pcre_other store skip limit filter_text
  = Ok (page skip limit (sort_created_at_desc docs)).
Proof.
  intros Hskip Hlimit Hfind. unfold get_products.
  rewrite (find_skip_limit_sort_page pcre_other store _ skip limit docs
             Hskip Hlimit Hfind).
  now rewrite map_product_helper.
Qed.

(** A listing that answers was given a skip and a limit that the driver
    takes, and a query that the store accepts. *)
Lemma get_products_Ok_accepted store skip limit filter_text products :
  get_products pcre_other store skip limit filter_text = Ok products ->
  0 <= skip <= max_int64
  /\ Z.abs limit <= max_int64
  /\ exists docs,
       find pcre_other store
         match truthy filter_text with
         | Some c => category_regex c
         | None => all_documents
         end = inr docs.
Proof.
  unfold get_products, find_skip_limit_sort.
  destruct (skip <? 0) eqn:Hneg; [discriminate|].
  destruct (fits_int64 skip && fits_int64 (Z.abs limit)) eqn:Hfits;
    cbn [negb]; [|discriminate].
  apply andb_prop in Hfits. destruct Hfits as [Hs Hl].
  unfold fits_int64 in Hs, Hl.
  apply andb_prop in Hs, Hl. destruct Hs as [_ Hs], Hl as [_ Hl].
  apply Z.leb_le in Hs, Hl. apply Z.ltb_ge in Hneg.
  destruct (find pcre_other store _) as [e|docs]; [discriminate|].
  intros _. repeat split; try assumption. now exists docs.
Qed.

(** X10. Consecutive pages fit together.  On one collection whose products
    have distinct creation instants (the server leaves the order of equal
    ones open) and with one filter, when the listing of [a] products from
    [skip] and the listing of [b] products from [skip + a] both answer, and
    [a + b] is a limit within 64 bits, the listing of [a + b] products from
    [skip] answers with the first sequence followed by the second: paging
    neither drops nor repeats a product. *)
Theorem pages_fit_together store skip a b filter_text first second :
  NoDup (map created_at store) ->
  0 <= skip -> 0 < a -> 0 < b -> a + b <= max_int64 ->
  get_products pcre_other store skip a filter_text = Ok first ->
  get_products pcre_other store (skip + a) b filter_text = Ok second ->
  get_products pcre_other store skip (a + b) filter_text = Ok (first ++ second).
Proof.
  intros _ Hskip Ha Hb Hab Hfirst Hsecond.
  destruct (get_products_Ok_accepted _ _ _ _ _ Hfirst) as (Hs & Hla & docs & Hfind).
  destruct (get_products_Ok_accepted _ _ _ _ _ Hsecond) as (Hsa & Hlb & _).
  rewrite (get_products_accepted store skip a filter_text docs) in Hfirst
    by (assumption || lia).
  rewrite (get_products_accepted store (skip + a) b filter_text docs) in Hsecond
    by (assumption || lia).
  rewrite (get_products_accepted store skip (a + b) filter_text docs)
    by (assumption || lia).
  injection Hfirst as <-. injection Hsecond as <-.
  now rewrite page_next by lia.
Qed.

(** X11. A limit of 0 is no limit.  Without a filter, the listing from the
    start with limit 0 returns every stored product exactly once, latest
    [created_at] first. *)
Theorem limit_zero_lists_all store :
  exists products,
    get_products pcre_other store 0 0 None = Ok products
    /\ Permutation products store
    /\ created_at_descending products.
Proof.
  exists (sort_created_at_desc store). split; [|split].
  - unfold get_products, find_skip_limit_sort, apply_limit. simpl.
    now rewrite map_product_helper.
  - apply sort_created_at_desc_perm.
  - apply sort_created_at_desc_sorted.
Qed.

(** X12. A skip or a limit out of range is not refused as a bad request.
    For a negative skip the driver raises, and both listings answer 500
    with the detail made of their prefix and the text of the driver,
    "skip must be >= 0", whatever the collection, the limit and the filter.
    For a skip or a limit beyond 64 bits the driver cannot encode the
    command, and both listings answer 500 as well. *)
Theorem negative_skip_is_internal_error store skip limit filter_text text :
  (skip < 0 ->
   get_products pcre_other store skip limit filter_text
   = Err (InternalErrorCaused "Failed to fetch products"
            (ValueError "skip must be >= 0"))
   /\ get_products_by_category pcre_other store text skip limit
      = Err (InternalErrorCaused "Failed to fetch products by category"
               (ValueError "skip must be >= 0"))
   /\ detail (InternalErrorCaused "Failed to fetch products"
                (ValueError "skip must be >= 0"))
      = Some "Failed to fetch products: skip must be >= 0"
   /\ detail (InternalErrorCaused "Failed to fetch products by category"
                (ValueError "skip must be >= 0"))
      = Some "Failed to fetch products by category: skip must be >= 0")
  /\ (0 <= skip -> max_int64 < skip \/ max_int64 < Z.abs limit ->
      get_products pcre_other store skip limit filter_text
      = Err (InternalErrorCaused "Failed to fetch products" OverflowError)
      /\ get_products_by_category pcre_other store text skip limit
         = Err (InternalErrorCaused "Failed to fetch products by category"
                  OverflowError)
      /\ status_code (InternalErrorCaused "Failed to fetch products" OverflowError)
         = 500).
Proof.
  split.
  - intros Hskip. apply Z.ltb_lt in Hskip.
    unfold get_products, get_products_by_category, find_skip_limit_sort.
    rewrite Hskip. repeat split.
  - intros Hskip Hbig.
    assert (Hneg : (skip <? 0) = false) by (apply Z.ltb_ge; lia).
    assert (Hfits : fits_int64 skip && fits_int64 (Z.abs limit) = false).
    { unfold fits_int64. destruct Hbig as [H|H].
      - replace (skip <=? max_int64) with false by (symmetry; apply Z.leb_gt; lia).
        now rewrite andb_false_r.
      - replace (Z.abs limit <=? max_int64) with false
          by (symmetry; apply Z.leb_gt; lia).
        now rewrite !andb_false_r. }
    unfold get_products, get_products_by_category, find_skip_limit_sort.
    rewrite Hneg, Hfits. repeat split.
Qed.

(** X13. The case of a plain filter does not matter: two filters of plain
    characters that differ only in the case of their letters give the same
    listing, for every collection, skip and limit. *)
Theorem filter_case_does_not_matter store skip limit text text' :
  plain_filter text = true ->
  plain_filter text' = true ->
  fold_case text = fold_case text' ->
  get_products pcre_other store skip limit (Some text)
  = get_products pcre_other store skip limit (Some text').
Proof.
  intros Hplain Hplain' Hfold.
  assert (Hfind : find pcre_other store (category_regex text)
                  = find pcre_other store (category_regex text')).
  { rewrite (find_plain pcre_other store text Hplain),
      (find_plain pcre_other store text' Hplain').
    f_equal. apply filter_ext. intros p. unfold contains_cib.
    now apply infix_ci_fold. }
  unfold get_products, find_skip_limit_sort.
  destruct text as [|c rest], text' as [|c' rest']; try discriminate Hfold;
    [reflexivity|].
  simpl truthy. cbv iota. now rewrite Hfind.
Qed.

(** X14. A skip at or past the number of stored products is not an error:
    a listing that answers is empty, whatever the limit and the filter. *)
Theorem skip_past_the_end store skip limit filter_text products :
  Z.of_nat (List.length store) <= skip ->
  get_products pcre_other store skip limit filter_text = Ok products ->
  products = [].
Proof.
  intros Hskip. unfold get_products, find_skip_limit_sort.
  destruct (skip <? 0); [discriminate|].
  destruct (negb _); [discriminate|].
  destruct (find pcre_other store _) as [e|docs] eqn:Hfind; [discriminate|].
  rewrite map_product_helper. intros H; injection H as <-.
  assert (Hlen : (List.length docs <= List.length store)%nat).
  { exact (find_length store _ docs Hfind). }
  rewrite skipn_all2.
  - unfold apply_limit. destruct (limit =? 0); [reflexivity | apply firstn_nil].
  - rewrite (Permutation_length (sort_created_at_desc_perm docs)). lia.
Qed.

End ListingMore.

Lemma pages_fit_together_witness :
  get_products reject_other [mug; mug2] 0 2 (Some "kitchen") = Ok [mug2; mug].
Proof.
  assert (Hdistinct : NoDup (map created_at [mug; mug2])).
  { simpl. constructor; [intros [H|[]]; discriminate H|].
    constructor; [intros [] | constructor]. }
  assert (H0 : 0 <= 0) by lia. assert (H1 : 0 < 1) by lia.
  assert (H2 : 1 + 1 <= max_int64) by (unfold max_int64; lia).
  exact (pages_fit_together reject_other [mug; mug2] 0 1 1 (Some "kitchen")
           [mug2] [mug] Hdistinct H0 H1 H1 H2 eq_refl eq_refl).
Defined.

Lemma skip_past_the_end_witness :
  get_products reject_other [mug; mug2] 2 50 (Some "kit") = Ok [].
Proof.
  assert (Hskip : Z.of_nat (List.length [mug; mug2]) <= 2) by (simpl; lia).
  destruct (get_products reject_other [mug; mug2] 2 50 (Some "kit"))
    as [products|e] eqn:E; [|discriminate E].
  now rewrite (skip_past_the_end reject_other [mug; mug2] 2 50 (Some "kit")
                 products Hskip E).
Defined.

Lemma negative_skip_is_internal_error_witness :
  get_products reject_other [mug] (-1) 50 None
  = Err (InternalErrorCaused "Failed to fetch products" (ValueError "skip must be >= 0"))
  /\ get_products reject_other [mug] 0 9223372036854775808 None
     = Err (InternalErrorCaused "Failed to fetch products" OverflowError).
Proof.
  destruct (negative_skip_is_internal_error reject_other [mug] (-1) 50 None "kit")
    as [Hneg _].
  destruct (negative_skip_is_internal_error reject_other [mug] 0 9223372036854775808
              None "kit") as [_ Hbig].
  split.
  - apply Hneg. reflexivity.
  - apply Hbig; [discriminate|]. right. reflexivity.
Defined.

Lemma filter_case_does_not_matter_witness :
  get_products reject_other [mug; mug2] 0 50 (Some "KitCHen")
  = get_products reject_other [mug; mug2] 0 50 (Some "kitchen").
Proof.
  apply (filter_case_does_not_matter reject_other [mug; mug2] 0 50 "KitCHen" "kitchen");
    reflexivity.
Defined.
